(** * MarketDataSimulator: queue, tick generator and simulation loop

  A shallow embedding of [main.cpp] (the [ThreadSafeQueue] template, the
  CSV writer thread and the producer loop of [main]) and of
  [marketData.cpp] / [marketData.h] (the tick record and the random-walk
  generator), followed by the properties of the design document.

  Modelling conventions.
  - Every method of [ThreadSafeQueue] holds [mtx_] for its whole body, so a
    method call is one atomic transition of the pair
    ([queue_], [stop_requested_]).  A concurrent execution is an
    interleaving of such transitions; a [wait_and_pop] whose wait predicate
    is false makes no transition (the caller stays blocked).
  - [long] is the 64-bit two's complement integer of the LP64 targets.  C++
    leaves the overflow of [+=] on a [long] undefined; the model takes the
    result of the machine addition, the sum reduced into the range.
  - [double] is IEEE 754 binary64, through the executable specification
    [SpecFloat] of the standard library: round to nearest even, the
    product and the sum of line 48 rounded one after the other.
  - The clock and the two random engines are inputs: every call of
    [generateTick] receives the instant and the two draws it consumes. *)

From Stdlib Require Import String.
From Stdlib Require Import Ascii DecimalString.
From Stdlib Require Import ZArith List Bool Lia.
From Stdlib Require Import Floats.SpecFloat.
Import ListNotations.

Set Implicit Arguments.

(* ================================================================== *)
(** * ThreadSafeQueue<T>  (main.cpp, lines 20-69) *)
(* ================================================================== *)

Module TSQ.

Section Queue.
Variable T : Type.

(** The private state: [queue_] with its front at the head of the list,
    and the [stop_requested_] flag.  The mutex and the condition variable
    carry no data. *)
Record ThreadSafeQueue : Type := mkQueue
  { queue_ : list T;
    stop_requested_ : bool }.

(** A default-constructed queue: no item, [stop_requested_ = false]. *)
Definition new_queue : ThreadSafeQueue := mkQueue [] false.

(** [std::queue::empty]. *)
Definition empty (l : list T) : bool :=
  match l with
  | [] => true
  | _ :: _ => false
  end.

(** [void push(T value)]. *)
Definition push (value : T) (q : ThreadSafeQueue) : ThreadSafeQueue :=
  mkQueue (queue_ q ++ [value]) (stop_requested_ q).

(** [bool try_pop(T& value)]: [None] is the [false] return, [Some v] the
    [true] return with [value = v]. *)
Definition try_pop (q : ThreadSafeQueue) : option T * ThreadSafeQueue :=
  if empty (queue_ q) then (None, q)
  else
    match queue_ q with
    | front :: rest => (Some front, mkQueue rest (stop_requested_ q))
    | [] => (None, q)
    end.

(** Outcomes of [wait_and_pop]: a value, the [runtime_error] thrown at
    line 50, or the caller left waiting on [cv_]. *)
Inductive wait_result : Type :=
| Popped (value : T)
| Stopped
| Blocked.

(** The predicate of [cv_.wait] (line 44). *)
Definition wait_predicate (q : ThreadSafeQueue) : bool :=
  negb (empty (queue_ q)) || stop_requested_ q.

(** [void wait_and_pop(T& value)].  The last branch is [front()] on an
    empty queue; [wait_and_pop_front_defined] shows it is never reached. *)
Definition wait_and_pop (q : ThreadSafeQueue) : wait_result * ThreadSafeQueue :=
  if wait_predicate q then
    if stop_requested_ q && empty (queue_ q) then (Stopped, q)
    else
      match queue_ q with
      | front :: rest => (Popped front, mkQueue rest (stop_requested_ q))
      | [] => (Blocked, q)
      end
  else (Blocked, q).

(** [void stop()]. *)
Definition stop (q : ThreadSafeQueue) : ThreadSafeQueue :=
  mkQueue (queue_ q) true.

(** ** Interleavings

    One method call per element; the trace is the order in which the
    calls acquire the mutex. *)
Inductive call : Type :=
| CPush (value : T)
| CTryPop
| CWaitAndPop
| CStop.

(** The values a call hands back to its caller, and the next state.  A
    [wait_and_pop] that finds the wait predicate false is recorded as an
    attempt that changes nothing: the caller is still inside the call, and
    what it gets in the end shows as a later [CWaitAndPop] of the trace. *)
Definition exec (c : call) (q : ThreadSafeQueue) : list T * ThreadSafeQueue :=
  match c with
  | CPush v => ([], push v q)
  | CTryPop =>
      match try_pop q with
      | (Some v, q') => ([v], q')
      | (None, q') => ([], q')
      end
  | CWaitAndPop =>
      match wait_and_pop q with
      | (Popped v, q') => ([v], q')
      | (_, q') => ([], q')
      end
  | CStop => ([], stop q)
  end.

Fixpoint run (cs : list call) (q : ThreadSafeQueue) : list T * ThreadSafeQueue :=
  match cs with
  | [] => ([], q)
  | c :: cs' =>
      let (out, q1) := exec c q in
      let (outs, q2) := run cs' q1 in
      (out ++ outs, q2)
  end.

(** The values pushed by a trace, in order. *)
Fixpoint pushed (cs : list call) : list T :=
  match cs with
  | [] => []
  | CPush v :: cs' => v :: pushed cs'
  | _ :: cs' => pushed cs'
  end.

Definition push_all (items : list T) (q : ThreadSafeQueue) : ThreadSafeQueue :=
  fold_left (fun acc v => push v acc) items q.

(** [n] successive calls of [wait_and_pop] by one consumer. *)
Fixpoint wait_and_pop_n (n : nat) (q : ThreadSafeQueue)
  : list wait_result * ThreadSafeQueue :=
  match n with
  | O => ([], q)
  | S n' =>
      let (r, q1) := wait_and_pop q in
      let (rs, q2) := wait_and_pop_n n' q1 in
      (r :: rs, q2)
  end.

(** [n] successive calls of [try_pop]. *)
Fixpoint try_pop_n (n : nat) (q : ThreadSafeQueue)
  : list (option T) * ThreadSafeQueue :=
  match n with
  | O => ([], q)
  | S n' =>
      let (r, q1) := try_pop q in
      let (rs, q2) := try_pop_n n' q1 in
      (r :: rs, q2)
  end.

(** Whether a trace is free of [wait_and_pop]: then no caller is ever
    left inside a call. *)
Fixpoint no_wait_and_pop (cs : list call) : bool :=
  match cs with
  | [] => true
  | CWaitAndPop :: _ => false
  | _ :: cs' => no_wait_and_pop cs'
  end.

(** Whether a trace contains a call of [stop]. *)
Fixpoint has_stop (cs : list call) : bool :=
  match cs with
  | [] => false
  | CStop :: _ => true
  | _ :: cs' => has_stop cs'
  end.

End Queue.

Arguments new_queue {T}.
Arguments Popped {T} value.
Arguments CPush {T} value.
Arguments stop {T} q.
Arguments Stopped {T}.
Arguments Blocked {T}.
Arguments CTryPop {T}.
Arguments CWaitAndPop {T}.
Arguments CStop {T}.

End TSQ.

(* ================================================================== *)
(** * Machine numbers *)
(* ================================================================== *)

Open Scope Z_scope.

(** [long]: 64 bits, two's complement. *)
Module Long.

Definition LONG_BITS : Z := 64.
Definition LONG_MAX : Z := 2 ^ (LONG_BITS - 1) - 1.
Definition LONG_MIN : Z := - 2 ^ (LONG_BITS - 1).

Definition in_range (z : Z) : Prop := LONG_MIN <= z <= LONG_MAX.

(** Reduction of a mathematical result into the range of [long]. *)
Definition wrap (z : Z) : Z :=
  (z - LONG_MIN) mod 2 ^ LONG_BITS + LONG_MIN.

End Long.

(** [double]: binary64, 53 bits of precision, infinities at exponent 1024. *)
Module Double.

Definition prec : Z := 53.
Definition emax : Z := 1024.

Definition double : Type := spec_float.

Definition add : double -> double -> double := SFadd prec emax.
Definition mul : double -> double -> double := SFmul prec emax.
Definition ltb : double -> double -> bool := SFltb.
Definition leb : double -> double -> bool := SFleb.

(** Every object of type [double] is a canonical binary64 value. *)
Definition valid (x : double) : bool := valid_binary prec emax x.

Definition is_nan (x : double) : bool :=
  match x with
  | S754_nan => true
  | _ => false
  end.

(** Zeros and finite non-zero values: neither an infinity nor a NaN. *)
Definition is_finite (x : double) : bool :=
  match x with
  | S754_zero _ | S754_finite _ _ _ => true
  | _ => false
  end.

(** The binary64 values the literals of the sources denote
    (mantissa and exponent of the nearest double). *)
Definition zero : double := S754_zero false.
Definition lit_0_005 : double := S754_finite false 5764607523034235 (-60).
Definition lit_0_01 : double := S754_finite false 5764607523034235 (-59).
Definition lit_0_02 : double := S754_finite false 5764607523034235 (-58).
Definition lit_0_1 : double := S754_finite false 7205759403792794 (-56).
Definition lit_0_5 : double := S754_finite false 4503599627370496 (-53).
Definition lit_m0_5 : double := S754_finite true 4503599627370496 (-53).
Definition lit_150_00 : double := S754_finite false 5277655813324800 (-45).
Definition lit_175_50 : double := S754_finite false 6174857301590016 (-45).
Definition lit_420_10 : double := S754_finite false 7390477357259162 (-44).
Definition lit_180_75 : double := S754_finite false 6359575255056384 (-45).
Definition lit_200_00 : double := S754_finite false 7036874417766400 (-45).

End Double.

(* ================================================================== *)
(** * MarketDataTick and MarketDataGenerator  (marketData.h, marketData.cpp) *)
(* ================================================================== *)

Module MarketData.

Import Double.

(** [struct MarketDataTick]; [timestamp] counts the ticks of the system
    clock since its epoch. *)
Record MarketDataTick : Type := mkTick
  { timestamp : Z;
    symbol : String.string;
    price : double;
    volume : Z }.

(** The data members of [class MarketDataGenerator] that carry the random
    walk.  The two engines are replaced by the draws they produce. *)
Record MarketDataGenerator : Type := mkGenerator
  { symbol_ : String.string;
    currentPrice_ : double;
    currentVolume_ : Z }.

(** The bounds given to the two distributions by the constructor:
    [priceDist_(-0.5, 0.5)] and [volumeDist_(1, 100)]. *)
Definition priceDist_a : double := lit_m0_5.
Definition priceDist_b : double := lit_0_5.
Definition volumeDist_a : Z := 1.
Definition volumeDist_b : Z := 100.

(** The constructor (marketData.cpp, lines 29-37). *)
Definition MarketDataGenerator_new
  (symbol : String.string) (initialPrice : double) (initialVolume : Z)
  : MarketDataGenerator :=
  mkGenerator symbol initialPrice initialVolume.

Definition getSymbol (g : MarketDataGenerator) : String.string := symbol_ g.

(** What one call of [generateTick] reads from outside the object:
    [system_clock::now()], [priceDist_(priceGen_)] and
    [volumeDist_(volumeGen_)]. *)
Record Draw : Type := mkDraw
  { now : Z;
    price_draw : double;
    volume_draw : Z }.

(** A draw the two distributions can produce: a binary64 value of
    [[priceDist_a, priceDist_b]] and an integer of
    [[volumeDist_a, volumeDist_b]]. *)
Definition draw_ok (d : Draw) : bool :=
  valid (price_draw d)
  && leb priceDist_a (price_draw d) && leb (price_draw d) priceDist_b
  && (volumeDist_a <=? volume_draw d) && (volume_draw d <=? volumeDist_b).

(** [currentPrice_ += priceDist_(priceGen_) * 0.1;] (line 48). *)
Definition perturbed_price (g : MarketDataGenerator) (d : Draw) : double :=
  add (currentPrice_ g) (mul (price_draw d) lit_0_1).

(** The guard of line 49. *)
Definition price_clamped (g : MarketDataGenerator) (d : Draw) : bool :=
  ltb (perturbed_price g d) lit_0_01.

(** [currentVolume_ += volumeDist_(volumeGen_);] (line 53). *)
Definition perturbed_volume (g : MarketDataGenerator) (d : Draw) : Z :=
  Long.wrap (currentVolume_ g + volume_draw d).

(** The guard of line 54. *)
Definition volume_clamped (g : MarketDataGenerator) (d : Draw) : bool :=
  perturbed_volume g d <? 1.

(** [MarketDataTick generateTick()] (lines 43-62): the returned tick and the
    object after the call. *)
Definition generateTick (g : MarketDataGenerator) (d : Draw)
  : MarketDataTick * MarketDataGenerator :=
  let p := if price_clamped g d then lit_0_01 else perturbed_price g d in
  let v := if volume_clamped g d then 1 else perturbed_volume g d in
  (mkTick (now d) (symbol_ g) p v, mkGenerator (symbol_ g) p v).

(** The lifetime of one generator: a call per draw; each call is recorded
    with the tick it returned and the object it left. *)
Fixpoint generate (g : MarketDataGenerator) (ds : list Draw)
  : list (MarketDataTick * MarketDataGenerator) :=
  match ds with
  | [] => []
  | d :: ds' =>
      let (t, g') := generateTick g d in
      (t, g') :: generate g' ds'
  end.

Definition ticks (g : MarketDataGenerator) (ds : list Draw) : list MarketDataTick :=
  map fst (generate g ds).

(** Which calls of a lifetime executed the assignment of line 55. *)
Fixpoint volume_clamp_trace (g : MarketDataGenerator) (ds : list Draw) : list bool :=
  match ds with
  | [] => []
  | d :: ds' => volume_clamped g d :: volume_clamp_trace (snd (generateTick g d)) ds'
  end.

(** Two draws used in the examples: the smallest volume draw with a price
    draw of zero, and with the lowest price draw. *)
Definition unit_draw : Draw := mkDraw 0 zero 1.
Definition worst_draw : Draw := mkDraw 0 lit_m0_5 1.

(** The two floors, on a returned tick and on the object left behind. *)
Definition floors_hold (tg : MarketDataTick * MarketDataGenerator) : Prop :=
  leb lit_0_01 (price (fst tg)) = true
  /\ 1 <= volume (fst tg)
  /\ leb lit_0_01 (currentPrice_ (snd tg)) = true
  /\ 1 <= currentVolume_ (snd tg).

(** The running totals of a start value and a list of increments. *)
Fixpoint partial_sums (start : Z) (xs : list Z) : list Z :=
  match xs with
  | [] => []
  | x :: xs' => (start + x) :: partial_sums (start + x) xs'
  end.

End MarketData.

(* ================================================================== *)
(** * MarketDataTick::getFormattedTimestamp  (marketData.cpp, lines 11-25) *)
(* ================================================================== *)

Module TickFormat.

Section Format.

(** Two things the C++ library decides: how many ticks of [system_clock]
    make a millisecond, and the text [put_time] produces from
    [localtime] for a [time_t] with the format of line 21. *)
Variable ticks_per_ms : Z.
Variable put_local_time : Z -> string.

(** [system_clock::to_time_t]: the whole seconds, rounded towards zero. *)
Definition to_time_t (timestamp : Z) : Z :=
  Z.quot timestamp (ticks_per_ms * 1000).

(** Line 22: [duration_cast<milliseconds>(...) % 1000], both rounding
    towards zero. *)
Definition ms_count (timestamp : Z) : Z :=
  Z.rem (Z.quot timestamp ticks_per_ms) 1000.

(** [operator<<] on an integer: its decimal digits, a minus sign first
    when it is negative. *)
Definition decimal (z : Z) : string :=
  NilZero.string_of_int (Z.to_int z).

(** [setfill(fill)] and [setw(width)] on a right-adjusted field. *)
Definition pad_left (width : nat) (fill : ascii) (s : string) : string :=
  (string_of_list_ascii (repeat fill (width - String.length s)) ++ s)%string.

(** [std::string getFormattedTimestamp() const]. *)
Definition getFormattedTimestamp (timestamp : Z) : string :=
  (put_local_time (to_time_t timestamp)
   ++ "." ++ pad_left 3 "0"%char (decimal (ms_count timestamp)))%string.

End Format.

(** The character of a decimal digit, and a number below 1000 written
    with three of them. *)
Definition digit (n : nat) : ascii :=
  ascii_of_nat (48 + n mod 10).

Definition three_digits (n : nat) : string :=
  String (digit (n / 100)) (String (digit (n / 10)) (String (digit n) EmptyString)).

(** Reading three digits back. *)
Definition value_of_digits (s : string) : option nat :=
  match s with
  | String a (String b (String c EmptyString)) =>
      Some ((nat_of_ascii a - 48) * 100 + (nat_of_ascii b - 48) * 10
            + (nat_of_ascii c - 48))%nat
  | _ => None
  end.

(** The check of the fraction field for one count of milliseconds, and
    for all of them. *)
Definition fraction_ok (n : nat) : bool :=
  String.eqb (pad_left 3 "0"%char (decimal (Z.of_nat n))) (three_digits n)
  && match value_of_digits (three_digits n) with
     | Some m => Nat.eqb m n
     | None => false
     end.

Definition fractions_ok : bool := forallb fraction_ok (seq 0 1000).

End TickFormat.

(* ================================================================== *)
(** * csvWriterThread and main  (main.cpp, lines 72-166) *)
(* ================================================================== *)

Module Simulation.

Import TSQ MarketData.

Definition TickQueue : Type := ThreadSafeQueue MarketDataTick.

(** ** The consumer: csvWriterThread

    The output file is the sequence of lines written to it: the header
    line, then one line per tick.  A line is kept as the tick it renders. *)
Inductive csv_line : Type :=
| Header
| Row (tick : MarketDataTick).

Inductive writer_pc : Type :=
| InLoop       (* inside [while (true)], about to call [wait_and_pop] *)
| Exited.      (* returned, the file is closed *)

Record writer : Type := mkWriter
  { pc : writer_pc;
    outputFile : list csv_line }.

(** Lines 73-83: open the file; give up when it is not open, else write
    the header and enter the loop. *)
Definition writer_start (is_open : bool) : writer :=
  if is_open then mkWriter InLoop [Header] else mkWriter Exited [].

(** One iteration of the loop of lines 85-94 together with the handler of
    line 95; [None] when the thread stays blocked in [wait_and_pop] (or has
    already returned). *)
Definition writer_iter (q : TickQueue) (w : writer) : option (TickQueue * writer) :=
  match pc w with
  | Exited => None
  | InLoop =>
      match wait_and_pop q with
      | (Popped tick, q') => Some (q', mkWriter InLoop (outputFile w ++ [Row tick]))
      | (Stopped, q') => Some (q', mkWriter Exited (outputFile w))
      | (Blocked, _) => None
      end
  end.

(** The writer running alone, nobody else touching the queue: iterate until
    it returns; [None] when it is left waiting, or after [fuel] iterations. *)
Fixpoint writer_alone (fuel : nat) (q : TickQueue) (w : writer)
  : option (TickQueue * writer) :=
  match pc w with
  | Exited => Some (q, w)
  | InLoop =>
      match fuel with
      | O => None
      | S fuel' =>
          match writer_iter q w with
          | Some (q', w') => writer_alone fuel' q' w'
          | None => None
          end
      end
  end.

Definition rows (f : list csv_line) : list MarketDataTick :=
  flat_map (fun l => match l with Header => [] | Row t => [t] end) f.

(** ** The producer: the simulation loop of main *)

Section Driver.

(** [env step i]: what the generator at position [i] of [generators] reads
    from its clock and engines during step [step]. *)
Variable env : nat -> nat -> Draw.

(** The range-for of lines 139-151, from position [i] on: generate, print
    the tick on the console, push it. *)
Fixpoint for_each_generator (step i : nat) (generators : list MarketDataGenerator)
  (tickQueue : TickQueue) (console : list MarketDataTick)
  : list MarketDataGenerator * TickQueue * list MarketDataTick :=
  match generators with
  | [] => ([], tickQueue, console)
  | generator :: rest =>
      let (tick, generator') := generateTick generator (env step i) in
      let console' := console ++ [tick] in
      let tickQueue' := push tick tickQueue in
      let '(rest', tickQueue'', console'') :=
        for_each_generator step (S i) rest tickQueue' console' in
      (generator' :: rest', tickQueue'', console'')
  end.

(** The for loop of lines 138-153 with [n] steps left, the next one being
    number [step]. *)
Fixpoint simulation_loop (n step : nat) (generators : list MarketDataGenerator)
  (tickQueue : TickQueue) (console : list MarketDataTick)
  : list MarketDataGenerator * TickQueue * list MarketDataTick :=
  match n with
  | O => (generators, tickQueue, console)
  | S n' =>
      let '(generators', tickQueue', console') :=
        for_each_generator step O generators tickQueue console in
      simulation_loop n' (S step) generators' tickQueue' console'
  end.

(** The producer side of [main] from line 134 to line 159, with nobody
    else touching the queue: all the steps, then [tickQueue.stop()]. *)
Definition produce (num_simulation_steps : nat) (generators : list MarketDataGenerator)
  (tickQueue : TickQueue) : list MarketDataGenerator * TickQueue * list MarketDataTick :=
  let '(generators', tickQueue', console) :=
    simulation_loop num_simulation_steps O generators tickQueue [] in
  (generators', stop tickQueue', console).

(** ** The expected order, generator by generator

    Generator [i] alone, fed with its own draws: its state before step
    [s], and the tick it returns in step [s]. *)
Fixpoint generator_before (g : MarketDataGenerator) (i s : nat) : MarketDataGenerator :=
  match s with
  | O => g
  | S s' => snd (generateTick (generator_before g i s') (env s' i))
  end.

Definition tick_of (g : MarketDataGenerator) (i s : nat) : MarketDataTick :=
  fst (generateTick (generator_before g i s) (env s i)).

(** The generators with their positions, from position [i] on. *)
Definition indexed (i : nat) (generators : list MarketDataGenerator)
  : list (nat * MarketDataGenerator) :=
  combine (seq i (List.length generators)) generators.

(** G1..Gg of one step, then the steps one after the other. *)
Definition step_ticks (generators : list MarketDataGenerator) (s : nat)
  : list MarketDataTick :=
  map (fun ig => tick_of (snd ig) (fst ig) s) (indexed O generators).

Definition interleaved (generators : list MarketDataGenerator) (steps : nat)
  : list MarketDataTick :=
  flat_map (step_ticks generators) (seq O steps).

(** The generators as they are when step [s] begins. *)
Definition at_step (generators : list MarketDataGenerator) (s : nat)
  : list MarketDataGenerator :=
  map (fun ig => generator_before (snd ig) (fst ig) s) (indexed O generators).

(** The calls [main] makes on the queue, in program order. *)
Definition producer_calls (steps : nat) (generators : list MarketDataGenerator)
  : list (call MarketDataTick) :=
  map CPush (interleaved generators steps) ++ [CStop].

End Driver.

(** ** The two threads together

    [todo] is what the producer still has to do on the queue; the writer
    moves when [wait_and_pop] lets it. *)
Record system : Type := mkSystem
  { todo : list (call MarketDataTick);
    tickQueue : TickQueue;
    writerThread : writer }.

Inductive sys_step : system -> system -> Prop :=
| producer_step (c : call MarketDataTick) (cs : list (call MarketDataTick))
    (q : TickQueue) (w : writer) :
    sys_step (mkSystem (c :: cs) q w) (mkSystem cs (snd (exec c q)) w)
| writer_step (cs : list (call MarketDataTick)) (q q' : TickQueue) (w w' : writer) :
    writer_iter q w = Some (q', w') ->
    sys_step (mkSystem cs q w) (mkSystem cs q' w').

Inductive sys_steps : system -> system -> Prop :=
| sys_refl (s : system) : sys_steps s s
| sys_trans (s1 s2 s3 : system) :
    sys_steps s1 s2 -> sys_step s2 s3 -> sys_steps s1 s3.

(** [main] after line 122: the writer thread started, the loop ahead. *)
Definition sys_init (env : nat -> nat -> Draw) (steps : nat)
  (generators : list MarketDataGenerator) (is_open : bool) : system :=
  mkSystem (producer_calls env steps generators) new_queue (writer_start is_open).

(** What holds of every state the two threads can reach while writing the
    ticks [all]: the lines written, the pending items and the pushes still
    to come make up [all]; the flag is set exactly when the producer is
    through; the writer only returns on an empty queue after that. *)
Definition sys_inv (all : list MarketDataTick) (s : system) : Prop :=
  (exists written : list MarketDataTick,
      outputFile (writerThread s) = Header :: map Row written
      /\ written ++ queue_ (tickQueue s) ++ pushed (todo s) = all)
  /\ ((stop_requested_ (tickQueue s) = false
       /\ exists rest : list MarketDataTick, todo s = map CPush rest ++ [CStop])
      \/ (stop_requested_ (tickQueue s) = true /\ todo s = []))
  /\ (pc (writerThread s) = Exited -> todo s = [] /\ queue_ (tickQueue s) = []).

(** Runs with their number of transitions. *)
Inductive sys_run : nat -> system -> system -> Prop :=
| run_O (s : system) : sys_run O s s
| run_S (n : nat) (s1 s2 s3 : system) :
    sys_run n s1 s2 -> sys_step s2 s3 -> sys_run (S n) s1 s3.

(** What holds of every reachable state when the file could not be
    opened: the writer has returned without a line written, and the items
    pile up in the queue. *)
Definition sys_inv_closed (all : list MarketDataTick) (s : system) : Prop :=
  writerThread s = mkWriter Exited []
  /\ queue_ (tickQueue s) ++ pushed (todo s) = all
  /\ ((stop_requested_ (tickQueue s) = false
       /\ exists rest : list MarketDataTick, todo s = map CPush rest ++ [CStop])
      \/ (stop_requested_ (tickQueue s) = true /\ todo s = [])).

(** [writerThread.join()] returns: nothing left to do, writer returned. *)
Definition finished (s : system) : Prop :=
  todo s = [] /\ pc (writerThread s) = Exited.

(** An upper bound on the number of transitions still possible. *)
Definition measure (s : system) : nat :=
  (2 * List.length (todo s) + List.length (queue_ (tickQueue s))
   + match pc (writerThread s) with InLoop => 1 | Exited => 0 end)%nat.

(** The generators of lines 110-115 and the step count of line 135. *)
Definition main_generators : list MarketDataGenerator :=
  [ MarketDataGenerator_new "GOOG"%string Double.lit_150_00 1000;
    MarketDataGenerator_new "AAPL"%string Double.lit_175_50 1200;
    MarketDataGenerator_new "MSFT"%string Double.lit_420_10 800;
    MarketDataGenerator_new "AMZN"%string Double.lit_180_75 1500;
    MarketDataGenerator_new "TSLA"%string Double.lit_200_00 900 ].

Definition num_simulation_steps : nat := 50.

(** Three generators and an environment for the examples: the clock shows
    the number of the call, the draws are [unit_draw]'s. *)
Definition abc_generators : list MarketDataGenerator :=
  [ MarketDataGenerator_new "A"%string Double.lit_150_00 1000;
    MarketDataGenerator_new "B"%string Double.lit_175_50 1200;
    MarketDataGenerator_new "C"%string Double.lit_200_00 900 ].

Definition abc_env (step i : nat) : Draw :=
  mkDraw (Z.of_nat (step * 3 + i)) Double.zero 1.

(** [n] iterations of the writer's loop in a row; [None] when one of
    them cannot be made. *)
Fixpoint writer_iters (n : nat) (q : TickQueue) (w : writer)
  : option (TickQueue * writer) :=
  match n with
  | O => Some (q, w)
  | S n' =>
      match writer_iter q w with
      | Some (q', w') => writer_iters n' q' w'
      | None => None
      end
  end.

(** One turn of a schedule: [true] lets the producer make its next call,
    [false] lets the writer make an iteration; a thread that cannot move
    loses its turn.  The result says whether a move was made. *)
Definition sys_turn (producer_turn : bool) (s : system) : bool * system :=
  if producer_turn then
    match todo s with
    | c :: cs => (true, mkSystem cs (snd (exec c (tickQueue s))) (writerThread s))
    | [] => (false, s)
    end
  else
    match writer_iter (tickQueue s) (writerThread s) with
    | Some (q', w') => (true, mkSystem (todo s) q' w')
    | None => (false, s)
    end.

(** A whole schedule: the number of moves made and the state reached. *)
Fixpoint sys_exec (schedule : list bool) (s : system) : nat * system :=
  match schedule with
  | [] => (O, s)
  | turn :: rest =>
      let (moved, s') := sys_turn turn s in
      let (n, s'') := sys_exec rest s' in
      ((if moved then S n else n), s'')
  end.

(** Two schedules for the three generators and two steps of the examples:
    one that stops midway, after two rows, and one that runs both threads
    to their end. *)
Definition abc_midway : list bool :=
  [true; true; false; true; false].

Definition abc_whole : list bool :=
  [true; true; false; true; false; true; true; true; false; false;
   true; false; false; false].

(** The producer alone: its six pushes and the stop. *)
Definition abc_producer_only : list bool :=
  [true; true; true; true; true; true; true].

End Simulation.

(* ================================================================== *)
(** * Facts about binary64 arithmetic *)
(* ================================================================== *)

Section DoubleFacts.

Import Double.

(** The number of binary digits of a mantissa below [2 ^ k]. *)
Lemma digits2_pos_le (p : positive) :
  forall k : Z, 0 <= k -> Z.pos p < 2 ^ k -> Z.pos (digits2_pos p) <= k.
Proof.
  induction p as [p IH | p IH |]; intros k Hk Hp; cbn [digits2_pos].
  - assert (1 <= k) by (destruct (Z.eq_dec k 0) as [->|]; [simpl in Hp|]; lia).
    replace k with (Z.succ (k - 1)) in Hp by lia.
    rewrite Z.pow_succ_r in Hp by lia.
    specialize (IH (k - 1) ltac:(lia) ltac:(lia)). lia.
  - assert (1 <= k) by (destruct (Z.eq_dec k 0) as [->|]; [simpl in Hp|]; lia).
    replace k with (Z.succ (k - 1)) in Hp by lia.
    rewrite Z.pow_succ_r in Hp by lia.
    specialize (IH (k - 1) ltac:(lia) ltac:(lia)). lia.
  - destruct (Z.eq_dec k 0) as [->|]; [simpl in Hp|]; lia.
Qed.

Lemma Zdigits2_le (m k : Z) :
  0 <= m < 2 ^ k -> 0 <= k -> Zdigits2 m <= k.
Proof.
  intros [H0 Hm] Hk. destruct m as [|p|p]; simpl; try lia.
  now apply digits2_pos_le.
Qed.

(** A canonical mantissa has at most [prec] digits. *)
Lemma canonical_mantissa_lt (m : positive) (e : Z) :
  canonical_mantissa prec emax m e = true -> Z.pos m < 2 ^ prec.
Proof.
  unfold canonical_mantissa, fexp, emin, prec, emax. intros H.
  apply Z.eqb_eq in H.
  assert (Hd : Z.pos (digits2_pos m) <= 53) by lia.
  clear H. revert Hd. generalize 53. revert e.
  induction m as [m IH | m IH |]; intros e k Hd; cbn [digits2_pos] in Hd.
  - assert (Z.pos m < 2 ^ (k - 1)) by (apply (IH e); lia).
    replace k with (Z.succ (k - 1)) by lia. rewrite Z.pow_succ_r by lia. lia.
  - assert (Z.pos m < 2 ^ (k - 1)) by (apply (IH e); lia).
    replace k with (Z.succ (k - 1)) by lia. rewrite Z.pow_succ_r by lia. lia.
  - assert (0 < 2 ^ (k - 1)) by (apply Z.pow_pos_nonneg; lia).
    replace k with (Z.succ (k - 1)) by lia. rewrite Z.pow_succ_r by lia. lia.
Qed.

(** Shifting right keeps a mantissa between 0 and what it was. *)
Lemma shr_1_bound (mrs : shr_record) (M : Z) :
  0 <= shr_m mrs <= M -> 0 <= shr_m (shr_1 mrs) <= M.
Proof.
  destruct mrs as [m r s]. simpl.
  destruct m as [|[p|p|]|[p|p|]]; simpl; lia.
Qed.

Lemma iter_pos_shr_1_bound (n : positive) (M : Z) :
  forall mrs, 0 <= shr_m mrs <= M -> 0 <= shr_m (iter_pos shr_1 n mrs) <= M.
Proof.
  induction n as [n IH | n IH |]; intros mrs H; cbn [iter_pos].
  - apply IH, IH, shr_1_bound, H.
  - apply IH, IH, H.
  - apply shr_1_bound, H.
Qed.

Lemma shr_record_of_loc_m (m : Z) (l : location) :
  shr_m (shr_record_of_loc m l) = m.
Proof. destruct l as [|[| |]]; reflexivity. Qed.

Lemma shr_fexp_bound (m e : Z) (l : location) :
  0 <= m ->
  0 <= shr_m (fst (shr_fexp prec emax m e l)) <= m
  /\ snd (shr_fexp prec emax m e l)
     = Z.max e (fexp prec emax (Zdigits2 m + e)).
Proof.
  intros Hm. unfold shr_fexp, shr.
  destruct (fexp prec emax (Zdigits2 m + e) - e) as [|n|n] eqn:Hn; cbn [fst snd].
  - rewrite shr_record_of_loc_m. lia.
  - split; [|lia]. apply iter_pos_shr_1_bound. rewrite shr_record_of_loc_m. lia.
  - rewrite shr_record_of_loc_m. lia.
Qed.

Lemma round_nearest_even_bound (m : Z) (l : location) :
  m <= round_nearest_even m l <= m + 1.
Proof.
  destruct l as [|[| |]]; simpl; try lia. destruct (Z.even m); lia.
Qed.

(** The final exponent of a rounding, and the sign of its mantissa. *)
Lemma binary_round_aux_cases (sx : bool) (mx ex : Z) (lx : location) :
  0 <= mx ->
  exists m1 e1 m2,
    0 <= m1 <= mx + 1
    /\ e1 = Z.max ex (fexp prec emax (Zdigits2 mx + ex))
    /\ 0 <= m2
    /\ binary_round_aux prec emax sx mx ex lx
       = match m2 with
         | Z0 => S754_zero sx
         | Zpos m =>
             if Z.max e1 (fexp prec emax (Zdigits2 m1 + e1)) <=? emax - prec
             then S754_finite sx m (Z.max e1 (fexp prec emax (Zdigits2 m1 + e1)))
             else S754_infinity sx
         | Zneg _ => S754_nan
         end.
Proof.
  intros Hm. unfold binary_round_aux.
  destruct (shr_fexp_bound ex lx Hm) as [Hb1 He1].
  destruct (shr_fexp prec emax mx ex lx) as [mrs' e'] eqn:E1. cbn [fst snd] in *.
  set (m1 := round_nearest_even (shr_m mrs') (loc_of_shr_record mrs')).
  assert (H1 : 0 <= m1 <= mx + 1).
  { pose proof (round_nearest_even_bound (shr_m mrs') (loc_of_shr_record mrs')).
    unfold m1. lia. }
  destruct (shr_fexp_bound e' loc_Exact (proj1 H1)) as [Hb2 He2].
  destruct (shr_fexp prec emax m1 e' loc_Exact) as [mrs'' e''] eqn:E2.
  cbn [fst snd] in *.
  exists m1, e', (shr_m mrs''). subst e' e''.
  repeat split; lia.
Qed.

Lemma binary_round_aux_not_nan (sx : bool) (mx ex : Z) (lx : location) :
  0 <= mx -> is_nan (binary_round_aux prec emax sx mx ex lx) = false.
Proof.
  intros Hm.
  destruct (binary_round_aux_cases sx ex lx Hm) as (m1 & e1 & m2 & _ & _ & H2 & ->).
  destruct m2 as [|m|m]; [reflexivity| |lia].
  now destruct (_ <=? _).
Qed.

(** A product whose mantissa is below [2 ^ 106] and whose exponent is at
    most [-109] is rounded to a zero or to a finite value. *)
Lemma binary_round_aux_small (sx : bool) (mx ex : Z) (lx : location) :
  0 <= mx < 2 ^ 106 -> ex <= -109 ->
  is_finite (binary_round_aux prec emax sx mx ex lx) = true.
Proof.
  intros Hm He.
  destruct (binary_round_aux_cases sx ex lx (proj1 Hm))
    as (m1 & e1 & m2 & H1 & He1 & H2 & ->).
  destruct m2 as [|m|m]; [reflexivity| |lia].
  assert (Hd : Zdigits2 mx <= 106) by (apply Zdigits2_le; lia).
  assert (Hd1 : Zdigits2 m1 <= 107).
  { apply Zdigits2_le; [|lia]. change (2 ^ 107) with (2 * 2 ^ 106). lia. }
  unfold fexp, emin, prec, emax in *.
  destruct (_ <=? _) eqn:E; [reflexivity|].
  apply Z.leb_gt in E. lia.
Qed.

Lemma mul_draw_finite (x : double) :
  valid x = true -> leb lit_m0_5 x = true -> leb x lit_0_5 = true ->
  is_finite (mul x lit_0_1) = true.
Proof.
  destruct x as [s|s| |s m e]; intros Hv Hlo Hhi;
    [reflexivity | destruct s; discriminate | discriminate |].
  unfold valid, valid_binary, bounded in Hv.
  apply andb_prop in Hv. destruct Hv as [Hc _].
  apply canonical_mantissa_lt in Hc.
  assert (He : e <= -53).
  { unfold leb, SFleb, SFcompare, lit_m0_5, lit_0_5 in Hlo, Hhi.
    destruct s.
    - destruct (Z.compare_spec (-53) e); try discriminate; lia.
    - destruct (Z.compare_spec e (-53)); try discriminate; lia. }
  unfold mul, SFmul, lit_0_1. apply binary_round_aux_small; [|lia].
  split; [lia|]. rewrite Pos2Z.inj_mul.
  change (2 ^ 106) with (2 ^ prec * 2 ^ 53).
  apply Z.mul_lt_mono_nonneg; lia.
Qed.

(** An addition only yields a NaN from a NaN or from two infinities. *)
Lemma add_not_nan (x y : double) :
  is_nan x = false -> is_finite y = true -> is_nan (add x y) = false.
Proof.
  destruct x as [sx|sx| |sx mx ex]; destruct y as [sy|sy| |sy my ey];
    try discriminate; try reflexivity; intros _ _.
  - now destruct sx, sy.
  - unfold add, SFadd, binary_normalize.
    destruct (_ + _)%Z as [|m|m]; [reflexivity| |];
      unfold binary_round; destruct (shl_align _ _ _) as [mz ez];
      apply binary_round_aux_not_nan; lia.
Qed.

(** Comparison of two numbers that are not NaN is total. *)
Lemma ltb_false_leb (x y : double) :
  is_nan x = false -> is_nan y = false -> ltb x y = false -> leb y x = true.
Proof.
  unfold ltb, leb, SFltb, SFleb.
  destruct x as [sx|sx| |sx mx ex]; destruct y as [sy|sy| |sy my ey];
    try discriminate; intros _ _; cbn [SFcompare];
    try (destruct sx; try destruct sy; simpl; congruence).
  change (PosDef.Pos.compare_cont Eq my mx) with (Pos.compare my mx).
  change (PosDef.Pos.compare_cont Eq mx my) with (Pos.compare mx my).
  rewrite (Z.compare_antisym ex ey), (Pos.compare_antisym mx my).
  destruct sx, sy; try congruence;
    destruct (ex ?= ey); cbn [CompOpp]; try congruence;
    destruct (mx ?= my)%positive; cbn [CompOpp]; congruence.
Qed.

Lemma leb_not_nan (x y : double) : leb x y = true -> is_nan y = false.
Proof.
  unfold leb, SFleb. destruct x, y; simpl; congruence.
Qed.

Lemma ltb_not_nan (x y : double) : ltb x y = true -> is_nan y = false.
Proof.
  unfold ltb, SFltb. destruct x, y; simpl; congruence.
Qed.

End DoubleFacts.

(* ================================================================== *)
(** * Facts about ThreadSafeQueue *)
(* ================================================================== *)

Section QueueFacts.

Import TSQ.

Variable T : Type.

Implicit Types (q : ThreadSafeQueue T) (x v : T) (xs items : list T).

Lemma try_pop_cons (x : T) (xs : list T) (s : bool) :
  try_pop (mkQueue (x :: xs) s) = (Some x, mkQueue xs s).
Proof. reflexivity. Qed.

Lemma try_pop_nil (s : bool) :
  try_pop (mkQueue (@nil T) s) = (None, mkQueue [] s).
Proof. reflexivity. Qed.

Lemma wait_and_pop_cons (x : T) (xs : list T) (s : bool) :
  wait_and_pop (mkQueue (x :: xs) s) = (Popped x, mkQueue xs s).
Proof. destruct s; reflexivity. Qed.

Lemma wait_and_pop_nil_stopped :
  wait_and_pop (mkQueue (@nil T) true) = (Stopped, mkQueue [] true).
Proof. reflexivity. Qed.

Lemma wait_and_pop_nil_open :
  wait_and_pop (mkQueue (@nil T) false) = (Blocked, mkQueue [] false).
Proof. reflexivity. Qed.

Lemma queue_eta (q : ThreadSafeQueue T) :
  q = mkQueue (queue_ q) (stop_requested_ q).
Proof. destruct q; reflexivity. Qed.

(** [front()] is only evaluated on a non-empty queue: past the wait and
    past the throw, [queue_] has an element. *)
Lemma wait_and_pop_front_defined (q : ThreadSafeQueue T) :
  wait_predicate q = true ->
  stop_requested_ q && empty (queue_ q) = false ->
  queue_ q <> [].
Proof.
  destruct q as [[|x xs] s]; unfold wait_predicate; simpl; intros Hw Hs.
  - rewrite Hw in Hs. discriminate.
  - discriminate.
Qed.

Lemma push_all_queue (items : list T) (q : ThreadSafeQueue T) :
  queue_ (push_all items q) = queue_ q ++ items.
Proof.
  revert q. induction items as [|v items IH]; intros q.
  - simpl. now rewrite app_nil_r.
  - change (push_all (v :: items) q) with (push_all items (push v q)).
    rewrite IH. simpl. now rewrite <- app_assoc.
Qed.

Lemma push_all_stop (items : list T) (q : ThreadSafeQueue T) :
  stop_requested_ (push_all items q) = stop_requested_ q.
Proof.
  revert q. induction items as [|v items IH]; intros q; [reflexivity|].
  change (push_all (v :: items) q) with (push_all items (push v q)).
  now rewrite IH.
Qed.

(** What one call does to the pending sequence. *)
Lemma exec_conserves (c : call T) (q : ThreadSafeQueue T) :
  fst (exec c q) ++ queue_ (snd (exec c q)) = queue_ q ++ pushed [c].
Proof.
  destruct q as [xs s]. destruct c as [v| | |]; simpl.
  - reflexivity.
  - destruct xs as [|x xs]; simpl; now rewrite ?app_nil_r.
  - destruct xs as [|x xs]; [destruct s|]; try rewrite wait_and_pop_cons;
      simpl; now rewrite ?app_nil_r.
  - now rewrite app_nil_r.
Qed.

Lemma pushed_cons (c : call T) (cs : list (call T)) :
  pushed (c :: cs) = pushed [c] ++ pushed cs.
Proof. destruct c; reflexivity. Qed.

Lemma run_conserves (cs : list (call T)) (q : ThreadSafeQueue T) :
  fst (run cs q) ++ queue_ (snd (run cs q)) = queue_ q ++ pushed cs.
Proof.
  revert q. induction cs as [|c cs IH]; intros q.
  - simpl. now rewrite app_nil_r.
  - rewrite (pushed_cons c cs). simpl run.
    pose proof (exec_conserves c q) as Hc.
    destruct (exec c q) as [out q1]. specialize (IH q1).
    destruct (run cs q1) as [outs q2]. cbn [fst snd] in *.
    now rewrite <- app_assoc, IH, app_assoc, Hc, <- app_assoc.
Qed.

(** The flag is never cleared. *)
Lemma exec_keeps_stop (c : call T) (q : ThreadSafeQueue T) :
  stop_requested_ q = true -> stop_requested_ (snd (exec c q)) = true.
Proof.
  destruct q as [xs s]; simpl; intros ->.
  destruct c as [v| | |]; simpl; try reflexivity.
  - destruct xs; reflexivity.
  - destruct xs; reflexivity.
Qed.

Lemma run_keeps_stop (cs : list (call T)) (q : ThreadSafeQueue T) :
  stop_requested_ q = true -> stop_requested_ (snd (run cs q)) = true.
Proof.
  revert q. induction cs as [|c cs IH]; intros q Hq; simpl; [exact Hq|].
  pose proof (exec_keeps_stop c q Hq) as H1.
  destruct (exec c q) as [out q1]. specialize (IH q1 H1).
  destruct (run cs q1) as [outs q2]. exact IH.
Qed.

Lemma wait_and_pop_n_drains (xs : list T) (s : bool) :
  wait_and_pop_n (length xs) (mkQueue xs s) = (map Popped xs, mkQueue [] s).
Proof.
  induction xs as [|x xs IH]; [reflexivity|].
  cbn [wait_and_pop_n length map]. rewrite wait_and_pop_cons, IH. reflexivity.
Qed.

Lemma try_pop_n_drains (xs : list T) (s : bool) :
  try_pop_n (length xs) (mkQueue xs s) = (map Some xs, mkQueue [] s).
Proof.
  induction xs as [|x xs IH]; [reflexivity|].
  cbn [try_pop_n length map]. rewrite try_pop_cons, IH. reflexivity.
Qed.

Lemma wait_and_pop_n_stop (xs : list T) :
  wait_and_pop_n (S (length xs)) (mkQueue xs true)
  = (map Popped xs ++ [Stopped], mkQueue [] true).
Proof.
  induction xs as [|x xs IH]; [reflexivity|].
  change (wait_and_pop_n (S (length (x :: xs))) (mkQueue (x :: xs) true))
    with (let (r, q1) := wait_and_pop (mkQueue (x :: xs) true) in
          let (rs, q2) := wait_and_pop_n (S (length xs)) q1 in
          (r :: rs, q2)).
  rewrite wait_and_pop_cons, IH. reflexivity.
Qed.

Lemma iter_stop (n : nat) (q : ThreadSafeQueue T) :
  Nat.iter (S n) stop q = stop q.
Proof.
  induction n as [|n IH]; [reflexivity|].
  change (Nat.iter (S (S n)) stop q) with (stop (Nat.iter (S n) stop q)).
  now rewrite IH.
Qed.

(** C1.  Whatever the interleaving of [push], [try_pop], [wait_and_pop] and
    [stop] on a new queue, the values handed out so far, followed by the
    values still pending, are the values pushed so far, in the order of the
    pushes: pops return the pushed values in FIFO order, none lost, none
    twice.  In particular N pushes followed by N calls of [wait_and_pop]
    (or of [try_pop]) return the N values in order and leave the queue
    empty. *)
Theorem fifo_exactly_once :
  (forall cs : list (call T),
      fst (run cs new_queue) ++ queue_ (snd (run cs new_queue)) = pushed cs)
  /\ (forall items : list T,
         wait_and_pop_n (length items) (push_all items new_queue)
         = (map Popped items, new_queue))
  /\ (forall items : list T,
         try_pop_n (length items) (push_all items new_queue)
         = (map Some items, new_queue)).
Proof.
  split; [|split].
  - intros cs. apply (run_conserves cs new_queue).
  - intros items.
    rewrite (queue_eta (push_all items new_queue)).
    rewrite push_all_queue, push_all_stop. apply wait_and_pop_n_drains.
  - intros items.
    rewrite (queue_eta (push_all items new_queue)).
    rewrite push_all_queue, push_all_stop. apply try_pop_n_drains.
Qed.

(** C2.  [wait_and_pop] returns the front item whenever the queue is not
    empty, with the stop flag set or not; after K pushes and [stop], K
    calls return the K items and only the call after them throws; and the
    throw only happens on an empty queue whose flag is set. *)
Theorem no_loss_across_shutdown :
  (forall (x : T) (xs : list T) (s : bool),
      wait_and_pop (mkQueue (x :: xs) s) = (Popped x, mkQueue xs s))
  /\ (forall items : list T,
         wait_and_pop_n (S (length items)) (stop (push_all items new_queue))
         = (map Popped items ++ [Stopped], mkQueue [] true))
  /\ (forall (xs : list T) (s : bool),
         fst (wait_and_pop (mkQueue xs s)) = Stopped <-> xs = [] /\ s = true).
Proof.
  split; [|split].
  - apply wait_and_pop_cons.
  - intros items. unfold stop. rewrite push_all_queue. apply wait_and_pop_n_stop.
  - intros [|x xs] s; [destruct s|]; try rewrite wait_and_pop_cons; simpl;
      (split; [intros H | intros [H1 H2]]); try discriminate; auto.
Qed.

(** C3.  Once [stop] has been called, whatever calls follow, a
    [wait_and_pop] made while the queue is empty throws: it neither returns
    a value nor waits, and it leaves the state as it was, so the next such
    call throws too. *)
Theorem stopped_and_empty_terminates (q : ThreadSafeQueue T) (cs : list (call T)) :
  queue_ (snd (run cs (stop q))) = [] ->
  stop_requested_ (snd (run cs (stop q))) = true
  /\ wait_and_pop (snd (run cs (stop q))) = (Stopped, snd (run cs (stop q))).
Proof.
  intros He.
  assert (Hs : stop_requested_ (snd (run cs (stop q))) = true)
    by (apply run_keeps_stop; reflexivity).
  split; [exact Hs|].
  destruct (snd (run cs (stop q))) as [xs s]. simpl in *. subst. reflexivity.
Qed.

(** C4.  [push] appends at the tail and leaves the flag alone, in either
    state; [stop] keeps the pending items; a value pushed after [stop] comes
    out of [wait_and_pop] and of [try_pop] once the items before it are
    out. *)
Theorem push_in_either_state :
  (forall (v : T) (q : ThreadSafeQueue T),
      queue_ (push v q) = queue_ q ++ [v]
      /\ stop_requested_ (push v q) = stop_requested_ q)
  /\ (forall q : ThreadSafeQueue T, queue_ (stop q) = queue_ q)
  /\ (forall (items : list T) (q : ThreadSafeQueue T),
         queue_ (push_all items (stop q)) = queue_ q ++ items)
  /\ (forall (v : T) (q : ThreadSafeQueue T),
         wait_and_pop_n (S (length (queue_ q))) (push v (stop q))
         = (map Popped (queue_ q ++ [v]), mkQueue [] true))
  /\ (forall (v : T) (q : ThreadSafeQueue T),
         try_pop_n (S (length (queue_ q))) (push v (stop q))
         = (map Some (queue_ q ++ [v]), mkQueue [] true)).
Proof.
  repeat split.
  - intros items q. now rewrite push_all_queue.
  - intros v q. unfold push, stop. simpl queue_. simpl stop_requested_.
    replace (S (length (queue_ q))) with (length (queue_ q ++ [v]))
      by (rewrite length_app; simpl; lia).
    apply wait_and_pop_n_drains.
  - intros v q. unfold push, stop. simpl queue_. simpl stop_requested_.
    replace (S (length (queue_ q))) with (length (queue_ q ++ [v]))
      by (rewrite length_app; simpl; lia).
    apply try_pop_n_drains.
Qed.

(** C7.  [try_pop] is a total function with two outcomes and no third:
    on a non-empty queue the front item, which it removes; on an empty
    queue "no item", the state untouched; in both cases whatever the stop
    flag. *)
Theorem try_pop_never_blocks :
  (forall (x : T) (xs : list T) (s : bool),
      try_pop (mkQueue (x :: xs) s) = (Some x, mkQueue xs s))
  /\ (forall s : bool, try_pop (mkQueue (@nil T) s) = (None, mkQueue [] s)).
Proof. split; reflexivity. Qed.

(** C8.  [stop] sets the flag and keeps the pending items, and calling it
    once more, any number of times, changes nothing. *)
Theorem stop_idempotent (q : ThreadSafeQueue T) :
  stop (stop q) = stop q
  /\ (forall n : nat, Nat.iter (S n) stop q = stop q)
  /\ stop_requested_ (stop q) = true
  /\ queue_ (stop q) = queue_ q.
Proof.
  repeat split. intros n. apply iter_stop.
Qed.

End QueueFacts.

(** An instance of C3: two consumers calling [wait_and_pop] on a stopped,
    empty queue of numbers. *)
Lemma stopped_and_empty_terminates_witness :
  TSQ.wait_and_pop
    (snd (TSQ.run [TSQ.CWaitAndPop; TSQ.CWaitAndPop] (TSQ.stop (@TSQ.new_queue nat))))
  = (TSQ.Stopped, TSQ.mkQueue [] true).
Proof.
  exact (proj2 (stopped_and_empty_terminates
                  (@TSQ.new_queue nat) [TSQ.CWaitAndPop; TSQ.CWaitAndPop] eq_refl)).
Defined.

(* ================================================================== *)
(** * Facts about MarketDataGenerator *)
(* ================================================================== *)

Section GeneratorFacts.

Import Double MarketData.

Lemma LONG_MAX_eq : Long.LONG_MAX = 9223372036854775807.
Proof. reflexivity. Qed.

Lemma LONG_MIN_eq : Long.LONG_MIN = -9223372036854775808.
Proof. reflexivity. Qed.

Lemma wrap_in_range (z : Z) : Long.in_range (Long.wrap z).
Proof.
  unfold Long.in_range, Long.wrap. rewrite LONG_MAX_eq, LONG_MIN_eq.
  change (2 ^ Long.LONG_BITS) with 18446744073709551616.
  pose proof (Z.mod_pos_bound (z - -9223372036854775808) 18446744073709551616).
  lia.
Qed.

Lemma wrap_small (z : Z) : Long.in_range z -> Long.wrap z = z.
Proof.
  unfold Long.in_range, Long.wrap. rewrite LONG_MAX_eq, LONG_MIN_eq.
  change (2 ^ Long.LONG_BITS) with 18446744073709551616. intros H.
  rewrite Z.mod_small; lia.
Qed.

(** Past the maximum, the sum comes back from the minimum. *)
Lemma wrap_overflow (z : Z) :
  Long.LONG_MAX < z <= Long.LONG_MAX + 2 ^ Long.LONG_BITS ->
  Long.wrap z = z - 2 ^ Long.LONG_BITS.
Proof.
  unfold Long.wrap. rewrite LONG_MAX_eq, LONG_MIN_eq.
  change (2 ^ Long.LONG_BITS) with 18446744073709551616. intros H.
  replace (z - -9223372036854775808)
    with (z - 18446744073709551616 + 9223372036854775808
          + 1 * 18446744073709551616) by lia.
  rewrite Z.mod_add by lia. rewrite Z.mod_small; lia.
Qed.

Lemma draw_ok_inv (d : Draw) :
  draw_ok d = true ->
  valid (price_draw d) = true
  /\ leb lit_m0_5 (price_draw d) = true
  /\ leb (price_draw d) lit_0_5 = true
  /\ 1 <= volume_draw d <= 100.
Proof.
  unfold draw_ok, priceDist_a, priceDist_b, volumeDist_a, volumeDist_b.
  intros H. repeat (apply andb_prop in H; destruct H as [H ?]).
  repeat split; try assumption; lia.
Qed.

(** The tick carries the state the call leaves. *)
Lemma generateTick_state (g : MarketDataGenerator) (d : Draw) :
  currentPrice_ (snd (generateTick g d)) = price (fst (generateTick g d))
  /\ currentVolume_ (snd (generateTick g d)) = volume (fst (generateTick g d))
  /\ symbol_ (snd (generateTick g d)) = symbol_ g
  /\ symbol (fst (generateTick g d)) = symbol_ g.
Proof. repeat split. Qed.

(** The volume of a tick is a [long] that is at least 1, whatever the
    object and the draw. *)
Lemma generateTick_volume_floor (g : MarketDataGenerator) (d : Draw) :
  1 <= volume (fst (generateTick g d)) <= Long.LONG_MAX.
Proof.
  unfold generateTick, volume_clamped. simpl.
  pose proof (wrap_in_range (currentVolume_ g + volume_draw d)) as [_ Hr].
  fold (perturbed_volume g d) in Hr.
  destruct (Z.ltb_spec (perturbed_volume g d) 1); [rewrite LONG_MAX_eq|]; lia.
Qed.

(** The perturbed price is a number when the price was one. *)
Lemma perturbed_price_not_nan (g : MarketDataGenerator) (d : Draw) :
  is_nan (currentPrice_ g) = false -> draw_ok d = true ->
  is_nan (perturbed_price g d) = false.
Proof.
  intros Hp Hd. apply draw_ok_inv in Hd. destruct Hd as (Hv & Hlo & Hhi & _).
  unfold perturbed_price. apply add_not_nan; [exact Hp|].
  now apply mul_draw_finite.
Qed.

Lemma generateTick_price_floor (g : MarketDataGenerator) (d : Draw) :
  is_nan (currentPrice_ g) = false -> draw_ok d = true ->
  leb lit_0_01 (price (fst (generateTick g d))) = true.
Proof.
  intros Hp Hd. unfold generateTick, price_clamped. simpl.
  destruct (ltb (perturbed_price g d) lit_0_01) eqn:E; [reflexivity|].
  apply ltb_false_leb; [|reflexivity|exact E].
  now apply perturbed_price_not_nan.
Qed.

(** Without overflow the guard of line 54 is false and the volume grows
    by the draw. *)
Lemma volume_step_no_overflow (g : MarketDataGenerator) (d : Draw) :
  1 <= currentVolume_ g -> currentVolume_ g + volume_draw d <= Long.LONG_MAX ->
  1 <= volume_draw d ->
  volume_clamped g d = false
  /\ volume (fst (generateTick g d)) = currentVolume_ g + volume_draw d.
Proof.
  intros Hg Hmax Hd.
  assert (Hw : perturbed_volume g d = currentVolume_ g + volume_draw d).
  { unfold perturbed_volume. apply wrap_small. unfold Long.in_range.
    rewrite LONG_MIN_eq. lia. }
  assert (Hc : volume_clamped g d = false).
  { unfold volume_clamped. rewrite Hw. apply Z.ltb_ge. lia. }
  split; [exact Hc|]. unfold generateTick. simpl. now rewrite Hc.
Qed.

Lemma generate_floors (ds : list Draw) :
  forall g : MarketDataGenerator,
    is_nan (currentPrice_ g) = false ->
    Forall (fun d => draw_ok d = true) ds ->
    Forall floors_hold (generate g ds).
Proof.
  induction ds as [|d ds IH]; intros g Hp Hds; [constructor|].
  inversion Hds as [|? ? Hd Hds']; subst.
  pose proof (generateTick_price_floor g d Hp Hd) as Hprice.
  pose proof (generateTick_volume_floor g d) as Hvol.
  destruct (generateTick_state g d) as (Sp & Sv & _).
  cbn [generate]. destruct (generateTick g d) as [t g'] eqn:E.
  cbn [fst snd] in *. constructor.
  - unfold floors_hold. cbn [fst snd]. rewrite Sp, Sv. repeat split; auto; lia.
  - apply IH; [|exact Hds']. rewrite Sp. eapply leb_not_nan, Hprice.
Qed.

(** C5.  A generator constructed with a price above zero and a volume of
    at least 1, called any number of times with draws of its two
    distributions: every tick it returns, and the state every call leaves,
    has a price of at least 0.01 and a volume of at least 1; and when the
    perturbed price is below 0.01, the price of the tick is exactly 0.01. *)
Theorem generator_floors
  (sym : string) (initialPrice : double) (initialVolume : Z) (ds : list Draw) :
  ltb zero initialPrice = true ->
  1 <= initialVolume <= Long.LONG_MAX ->
  Forall (fun d => draw_ok d = true) ds ->
  Forall floors_hold
    (generate (MarketDataGenerator_new sym initialPrice initialVolume) ds)
  /\ (forall (g : MarketDataGenerator) (d : Draw),
         ltb (perturbed_price g d) lit_0_01 = true ->
         price (fst (generateTick g d)) = lit_0_01).
Proof.
  intros Hp _ Hds. split.
  - apply generate_floors; [|exact Hds]. simpl. eapply ltb_not_nan, Hp.
  - intros g d H. unfold generateTick, price_clamped. simpl. now rewrite H.
Qed.

(** C6, as the code has it.  Between two consecutive calls the volume does
    not decrease provided the earlier tick's volume plus the draw still
    fits a [long]; it then grows by exactly the draw. *)
Theorem volume_non_decreasing_without_overflow
  (g : MarketDataGenerator) (d1 d2 : Draw) :
  draw_ok d2 = true ->
  volume (fst (generateTick g d1)) + volume_draw d2 <= Long.LONG_MAX ->
  volume (fst (generateTick g d1))
  <= volume (fst (generateTick (snd (generateTick g d1)) d2))
  /\ volume (fst (generateTick (snd (generateTick g d1)) d2))
     = volume (fst (generateTick g d1)) + volume_draw d2.
Proof.
  intros Hd Hmax. apply draw_ok_inv in Hd. destruct Hd as (_ & _ & _ & Hv).
  destruct (generateTick_state g d1) as (_ & Sv & _).
  pose proof (generateTick_volume_floor g d1) as [H1 _].
  rewrite <- Sv in Hmax, H1 |- *.
  destruct (volume_step_no_overflow (snd (generateTick g d1)) d2) as [_ E]; lia.
Qed.

Lemma volume_clamp_trace_no_overflow (ds : list Draw) :
  forall g : MarketDataGenerator,
    1 <= currentVolume_ g ->
    currentVolume_ g + 100 * Z.of_nat (length ds) <= Long.LONG_MAX ->
    Forall (fun d => draw_ok d = true) ds ->
    Forall (fun b => b = false) (volume_clamp_trace g ds)
    /\ Forall (fun t => 2 <= volume t) (ticks g ds).
Proof.
  induction ds as [|d ds IH]; intros g Hg Hmax Hds.
  - split; constructor.
  - inversion Hds as [|? ? Hd Hds']; subst.
    apply draw_ok_inv in Hd. destruct Hd as (_ & _ & _ & Hv).
    change (length (d :: ds)) with (S (length ds)) in Hmax.
    rewrite Nat2Z.inj_succ in Hmax.
    destruct (volume_step_no_overflow g d) as [Hc Hvol]; try lia.
    destruct (generateTick_state g d) as (_ & Sv & _).
    destruct (IH (snd (generateTick g d))) as [IH1 IH2]; try assumption; try lia.
    unfold ticks in *. cbn [volume_clamp_trace generate].
    destruct (generateTick g d) as [t g'] eqn:E. cbn [fst snd map] in *.
    split; constructor; auto; lia.
Qed.

(** C10, as the code has it.  For a generator constructed with a volume of
    at least 1 whose volume cannot pass [LONG_MAX] during the calls made
    (100 per call at most), no call takes the branch of line 55: every
    draw is at least 1, so every tick has a volume of at least 2. *)
Theorem volume_clamp_dead_without_overflow
  (sym : string) (initialPrice : double) (initialVolume : Z) (ds : list Draw) :
  1 <= initialVolume ->
  initialVolume + 100 * Z.of_nat (length ds) <= Long.LONG_MAX ->
  Forall (fun d => draw_ok d = true) ds ->
  Forall (fun b => b = false)
    (volume_clamp_trace (MarketDataGenerator_new sym initialPrice initialVolume) ds)
  /\ Forall (fun t => 2 <= volume t)
       (ticks (MarketDataGenerator_new sym initialPrice initialVolume) ds).
Proof.
  intros H1 Hmax Hds. now apply volume_clamp_trace_no_overflow.
Qed.

End GeneratorFacts.

(* ================================================================== *)
(** * Facts about the simulation loop and the two threads *)
(* ================================================================== *)

Section DriverFacts.

Import TSQ MarketData Simulation.

Variable env : nat -> nat -> Draw.

Lemma push_all_app (A : Type) (xs ys : list A) (q : ThreadSafeQueue A) :
  push_all (xs ++ ys) q = push_all ys (push_all xs q).
Proof. unfold push_all. apply fold_left_app. Qed.

Lemma indexed_cons (i : nat) (g : MarketDataGenerator) (gens : list MarketDataGenerator) :
  indexed i (g :: gens) = (i, g) :: indexed (S i) gens.
Proof. reflexivity. Qed.

Lemma indexed_snd (gens : list MarketDataGenerator) :
  forall i : nat, map snd (indexed i gens) = gens.
Proof.
  induction gens as [|g gens IH]; intros i; [reflexivity|].
  rewrite indexed_cons. simpl. now rewrite IH.
Qed.

Lemma indexed_map (f : nat -> MarketDataGenerator -> MarketDataGenerator)
  (gens : list MarketDataGenerator) :
  forall i : nat,
    indexed i (map (fun ig => f (fst ig) (snd ig)) (indexed i gens))
    = map (fun ig => (fst ig, f (fst ig) (snd ig))) (indexed i gens).
Proof.
  induction gens as [|g gens IH]; intros i; [reflexivity|].
  rewrite indexed_cons. cbn [map fst snd]. rewrite indexed_cons.
  now rewrite IH.
Qed.

(** One pass over the generators: each is called once, in the order of the
    vector, and its tick is printed and pushed at once. *)
Lemma for_each_generator_spec (step : nat) (gens : list MarketDataGenerator) :
  forall (i : nat) (q : TickQueue) (console : list MarketDataTick),
    for_each_generator env step i gens q console
    = (map (fun ig => snd (generateTick (snd ig) (env step (fst ig)))) (indexed i gens),
       push_all
         (map (fun ig => fst (generateTick (snd ig) (env step (fst ig)))) (indexed i gens))
         q,
       console
       ++ map (fun ig => fst (generateTick (snd ig) (env step (fst ig)))) (indexed i gens)).
Proof.
  induction gens as [|g gens IH]; intros i q console.
  - simpl. now rewrite app_nil_r.
  - cbn [for_each_generator]. rewrite indexed_cons. cbn [map fst snd].
    destruct (generateTick g (env step i)) as [tick g'].
    rewrite IH. cbn [fst snd]. rewrite <- app_assoc. reflexivity.
Qed.

Lemma at_step_O (gens : list MarketDataGenerator) : at_step env gens O = gens.
Proof.
  unfold at_step. cbn [generator_before].
  rewrite <- (indexed_snd gens O) at 2. reflexivity.
Qed.

Lemma for_each_generator_at_step (gens : list MarketDataGenerator) (s : nat)
  (q : TickQueue) (console : list MarketDataTick) :
  for_each_generator env s O (at_step env gens s) q console
  = (at_step env gens (S s),
     push_all (step_ticks env gens s) q,
     console ++ step_ticks env gens s).
Proof.
  rewrite for_each_generator_spec. unfold at_step, step_ticks, tick_of.
  rewrite (indexed_map (fun i g => generator_before env g i s)).
  rewrite !map_map. reflexivity.
Qed.

Lemma simulation_loop_spec (gens : list MarketDataGenerator) (n : nat) :
  forall (s : nat) (q : TickQueue) (console : list MarketDataTick),
    simulation_loop env n s (at_step env gens s) q console
    = (at_step env gens (s + n),
       push_all (flat_map (step_ticks env gens) (seq s n)) q,
       console ++ flat_map (step_ticks env gens) (seq s n)).
Proof.
  induction n as [|n IH]; intros s q console.
  - rewrite Nat.add_0_r. simpl. now rewrite app_nil_r.
  - cbn [simulation_loop]. rewrite for_each_generator_at_step, IH.
    cbn [seq flat_map]. rewrite push_all_app, <- app_assoc.
    now rewrite Nat.add_succ_r.
Qed.

Lemma produce_spec (steps : nat) (gens : list MarketDataGenerator) :
  produce env steps gens new_queue
  = (at_step env gens steps,
     mkQueue (interleaved env gens steps) true,
     interleaved env gens steps).
Proof.
  unfold produce. rewrite <- (at_step_O gens) at 1.
  rewrite simulation_loop_spec. unfold stop, interleaved.
  now rewrite push_all_queue.
Qed.

Lemma generator_before_symbol (g : MarketDataGenerator) (i s : nat) :
  symbol_ (generator_before env g i s) = symbol_ g.
Proof. induction s as [|s IH]; [reflexivity|exact IH]. Qed.

Lemma step_ticks_symbols (gens : list MarketDataGenerator) (s : nat) :
  map symbol (step_ticks env gens s) = map symbol_ gens.
Proof.
  unfold step_ticks. rewrite map_map.
  rewrite <- (indexed_snd gens O) at 2. rewrite map_map.
  apply map_ext. intros [i g]. unfold tick_of. simpl.
  apply generator_before_symbol.
Qed.

Lemma interleaved_symbols (gens : list MarketDataGenerator) (steps : nat) :
  map symbol (interleaved env gens steps) = concat (repeat (map symbol_ gens) steps).
Proof.
  unfold interleaved. generalize O.
  induction steps as [|n IH]; intros s; [reflexivity|].
  cbn [seq flat_map repeat concat]. now rewrite map_app, step_ticks_symbols, IH.
Qed.

Lemma step_ticks_length (gens : list MarketDataGenerator) (s : nat) :
  length (step_ticks env gens s) = length gens.
Proof.
  rewrite <- (length_map symbol), step_ticks_symbols. apply length_map.
Qed.

Lemma indexed_nth (gens : list MarketDataGenerator) :
  forall (k i : nat) (g : MarketDataGenerator),
    nth_error gens i = Some g ->
    nth_error (indexed k gens) i = Some ((k + i)%nat, g).
Proof.
  induction gens as [|g0 gens IH]; intros k [|i] g Hg; try discriminate.
  - simpl in Hg. inversion Hg. subst. rewrite indexed_cons, Nat.add_0_r. reflexivity.
  - rewrite indexed_cons. simpl in Hg |- *. rewrite (IH (S k) i g Hg).
    now rewrite Nat.add_succ_r.
Qed.

Lemma step_ticks_nth (gens : list MarketDataGenerator) (s i : nat)
  (g : MarketDataGenerator) :
  nth_error gens i = Some g ->
  nth_error (step_ticks env gens s) i = Some (tick_of env g i s).
Proof.
  intros Hg. unfold step_ticks.
  rewrite nth_error_map, (@indexed_nth gens O i g Hg). reflexivity.
Qed.

Lemma flat_steps_nth (gens : list MarketDataGenerator) (i : nat)
  (g : MarketDataGenerator) :
  nth_error gens i = Some g ->
  forall steps k s : nat,
    (s < steps)%nat ->
    nth_error (flat_map (step_ticks env gens) (seq k steps)) (s * length gens + i)
    = Some (tick_of env g i (k + s)).
Proof.
  intros Hg.
  assert (Hlt : (i < length gens)%nat) by (apply nth_error_Some; congruence).
  induction steps as [|n IH]; intros k s Hs; [lia|].
  cbn [seq flat_map]. destruct s as [|s].
  - rewrite nth_error_app1 by (rewrite step_ticks_length; exact Hlt).
    rewrite Nat.add_0_r. now apply step_ticks_nth.
  - rewrite nth_error_app2 by (rewrite step_ticks_length; simpl; lia).
    rewrite step_ticks_length.
    replace (S s * length gens + i - length gens)%nat
      with (s * length gens + i)%nat by (simpl; lia).
    rewrite (IH (S k) s) by lia. now rewrite Nat.add_succ_r.
Qed.

(** Position [s * G + i] of the pushes is the tick of step [s] of the
    generator at position [i]. *)
Lemma interleaved_nth (gens : list MarketDataGenerator) (steps s i : nat)
  (g : MarketDataGenerator) :
  (s < steps)%nat -> nth_error gens i = Some g ->
  nth_error (interleaved env gens steps) (s * length gens + i)
  = Some (tick_of env g i s).
Proof.
  intros Hs Hg. exact (@flat_steps_nth gens i g Hg steps O s Hs).
Qed.

(** ** The two threads *)

Lemma sys_inv_init (all : list MarketDataTick) :
  sys_inv all (mkSystem (map CPush all ++ [CStop]) new_queue (writer_start true)).
Proof.
  unfold sys_inv. cbn [todo tickQueue writerThread writer_start outputFile pc].
  split; [|split].
  - exists []. split; [reflexivity|]. simpl.
    induction all as [|t all IH]; [reflexivity|]. simpl. now f_equal.
  - left. split; [reflexivity|]. now exists all.
  - discriminate.
Qed.

Lemma writer_iter_inv (q q' : TickQueue) (w w' : writer) :
  writer_iter q w = Some (q', w') ->
  pc w = InLoop
  /\ ((exists t, queue_ q = t :: queue_ q'
                 /\ stop_requested_ q' = stop_requested_ q
                 /\ w' = mkWriter InLoop (outputFile w ++ [Row t]))
      \/ (queue_ q = [] /\ stop_requested_ q = true /\ q' = q
          /\ w' = mkWriter Exited (outputFile w))).
Proof.
  unfold writer_iter. destruct (pc w); [|discriminate].
  destruct q as [[|t xs] [|]]; try rewrite wait_and_pop_cons; simpl;
    intros H; inversion H; subst; split; try reflexivity.
  - right. repeat split.
  - left. exists t. repeat split.
  - left. exists t. repeat split.
Qed.

Lemma sys_inv_step (all : list MarketDataTick) (s s' : system) :
  sys_inv all s -> sys_step s s' -> sys_inv all s'.
Proof.
  intros ([written [Hf Hall]] & Hflag & Hexit) Hstep.
  destruct Hstep as [c cs q w | cs q q' w w' Hw];
    cbn [todo tickQueue writerThread] in *.
  - destruct Hflag as [[Hs [rest Hrest]] | [_ Hnil]]; [|discriminate].
    assert (Hpc : pc w = InLoop).
    { destruct (pc w); [reflexivity|]. destruct Hexit; [reflexivity|discriminate]. }
    destruct rest as [|t rest]; simpl in Hrest; injection Hrest as -> ->.
    + (* [tickQueue.stop()] *)
      unfold sys_inv. cbn [todo tickQueue writerThread exec snd stop queue_ stop_requested_].
      split; [|split].
      * exists written. split; [exact Hf|exact Hall].
      * right. split; reflexivity.
      * rewrite Hpc. discriminate.
    + (* [tickQueue.push(tick)] *)
      unfold sys_inv. cbn [todo tickQueue writerThread exec snd push queue_ stop_requested_].
      split; [|split].
      * exists written. split; [exact Hf|].
        rewrite <- Hall. cbn [pushed]. rewrite <- !app_assoc. reflexivity.
      * left. split; [exact Hs|]. now exists rest.
      * rewrite Hpc. discriminate.
  - apply writer_iter_inv in Hw.
    destruct Hw as [Hpc [(t & Hq & Hs & ->) | (Hq & Hs & -> & ->)]].
    + unfold sys_inv. cbn [todo tickQueue writerThread outputFile pc].
      split; [|split].
      * exists (written ++ [t]). split.
        -- rewrite Hf, map_app. reflexivity.
        -- rewrite <- Hall, Hq, <- !app_assoc. reflexivity.
      * rewrite Hs. exact Hflag.
      * discriminate.
    + unfold sys_inv. cbn [todo tickQueue writerThread outputFile pc].
      split; [|split].
      * exists written. split; [exact Hf|exact Hall].
      * exact Hflag.
      * intros _. split; [|exact Hq].
        destruct Hflag as [[Hs' _] | [_ Hnil]]; [congruence|exact Hnil].
Qed.

Lemma sys_inv_steps (all : list MarketDataTick) (s s' : system) :
  sys_inv all s -> sys_steps s s' -> sys_inv all s'.
Proof.
  intros Hinv Hsteps. induction Hsteps as [s | s1 s2 s3 _ IH Hstep].
  - exact Hinv.
  - eapply sys_inv_step; [apply IH, Hinv | exact Hstep].
Qed.

(** When [join] returns, the file holds the header and every tick, in the
    order of the pushes. *)
Lemma sys_inv_finished (all : list MarketDataTick) (s : system) :
  sys_inv all s -> finished s ->
  outputFile (writerThread s) = Header :: map Row all
  /\ queue_ (tickQueue s) = [].
Proof.
  intros ([written [Hf Hall]] & _ & Hexit) [Htodo Hpc].
  destruct (Hexit Hpc) as [_ Hq]. split; [|exact Hq].
  rewrite Htodo, Hq in Hall. simpl in Hall. rewrite app_nil_r in Hall.
  now subst.
Qed.

(** No deadlock: some thread can move as long as [join] has not returned. *)
Lemma sys_progress (all : list MarketDataTick) (s : system) :
  sys_inv all s -> finished s \/ exists s', sys_step s s'.
Proof.
  intros (_ & Hflag & _). destruct s as [td q w].
  cbn [todo tickQueue writerThread] in *.
  destruct td as [|c cs].
  - destruct Hflag as [[_ [rest Hrest]] | [Hs _]].
    + destruct rest; discriminate.
    + destruct w as [[|] f].
      * right. destruct q as [[|t xs] st]; simpl in Hs; subst st.
        -- exists (mkSystem [] (mkQueue [] true) (mkWriter Exited f)).
           now apply writer_step.
        -- exists (mkSystem [] (mkQueue xs true) (mkWriter InLoop (f ++ [Row t]))).
           now apply writer_step.
      * left. split; reflexivity.
  - right. eexists. apply producer_step.
Qed.

Lemma exec_length (c : call MarketDataTick) (q : TickQueue) :
  (length (queue_ (snd (exec c q))) <= S (length (queue_ q)))%nat.
Proof.
  destruct q as [xs st]. destruct c as [v| | |]; cbn [exec].
  - simpl. rewrite length_app. simpl. lia.
  - destruct xs; simpl; lia.
  - destruct xs as [|x xs]; [destruct st|]; try rewrite wait_and_pop_cons; simpl; lia.
  - simpl. lia.
Qed.

(** Every transition uses up some of the measure: no run goes on forever. *)
Lemma sys_step_measure (s s' : system) :
  sys_step s s' -> (measure s' < measure s)%nat.
Proof.
  intros [c cs q w | cs q q' w w' Hw]; unfold measure;
    cbn [todo tickQueue writerThread].
  - pose proof (exec_length c q). simpl length. lia.
  - apply writer_iter_inv in Hw.
    destruct Hw as [Hpc [(t & Hq & Hs & ->) | (Hq & Hs & -> & ->)]];
      rewrite Hpc; cbn [pc]; [rewrite Hq; simpl length|]; lia.
Qed.

Lemma sys_steps_left (s1 s2 s3 : system) :
  sys_step s1 s2 -> sys_steps s2 s3 -> sys_steps s1 s3.
Proof.
  intros H12 H23. induction H23 as [s | s2 s3 s4 _ IH H34].
  - eapply sys_trans; [apply sys_refl|exact H12].
  - eapply sys_trans; [apply IH, H12|exact H34].
Qed.

(** From every reachable state the run can be completed. *)
Lemma sys_completes (all : list MarketDataTick) (n : nat) :
  forall s : system,
    (measure s <= n)%nat -> sys_inv all s ->
    exists s', sys_steps s s' /\ finished s'.
Proof.
  induction n as [|n IH]; intros s Hm Hinv;
    destruct (sys_progress Hinv) as [Hfin | [s1 Hstep]].
  - exists s. split; [apply sys_refl|exact Hfin].
  - apply sys_step_measure in Hstep. lia.
  - exists s. split; [apply sys_refl|exact Hfin].
  - pose proof (sys_step_measure Hstep) as Hlt.
    destruct (IH s1) as (s' & Hsteps & Hfin);
      [lia | eapply sys_inv_step; eassumption |].
    exists s'. split; [eapply sys_steps_left; eassumption|exact Hfin].
Qed.

(** C9.  The producer runs [steps] steps; each step calls every generator
    once, in the order of the vector, and pushes the tick at once.  So the
    queue receives G1..Gg of step 0, then G1..Gg of step 1, and so on: the
    item at position [s * G + i] is the tick of step [s] of generator [i],
    and the symbols read as the symbols of the vector repeated [steps]
    times.  Whatever the interleaving of the producer with the writer
    thread, when the writer has returned the file holds the header and
    these ticks in this order, and every interleaving can be completed. *)
Theorem simulation_push_order (steps : nat) (gens : list MarketDataGenerator) :
  produce env steps gens new_queue
  = (at_step env gens steps,
     mkQueue (interleaved env gens steps) true,
     interleaved env gens steps)
  /\ map symbol (interleaved env gens steps)
     = concat (repeat (map symbol_ gens) steps)
  /\ (forall (s i : nat) (g : MarketDataGenerator),
         (s < steps)%nat -> nth_error gens i = Some g ->
         nth_error (interleaved env gens steps) (s * length gens + i)
         = Some (tick_of env g i s))
  /\ (forall st : system,
         sys_steps (sys_init env steps gens true) st ->
         (finished st ->
          outputFile (writerThread st) = Header :: map Row (interleaved env gens steps))
         /\ exists st', sys_steps st st' /\ finished st').
Proof.
  split; [apply produce_spec|].
  split; [apply interleaved_symbols|].
  split; [intros s i g; apply interleaved_nth|].
  intros st Hsteps.
  assert (Hinv : sys_inv (interleaved env gens steps) st).
  { eapply sys_inv_steps; [|exact Hsteps]. apply sys_inv_init. }
  split.
  - intros Hfin. now destruct (sys_inv_finished Hinv Hfin).
  - apply (@sys_completes (interleaved env gens steps) (measure st)); auto.
Qed.

End DriverFacts.

(* ================================================================== *)
(** * Instances *)
(* ================================================================== *)

Import Double MarketData Simulation.

(** Starting at 0.02 with the lowest price draw each time, the price is
    held at 0.01; the volume grows from 1. *)
Example floor_run :
  map (fun tg => (price (fst tg), volume (fst tg)))
    (generate (MarketDataGenerator_new "TEST" lit_0_02 1)
       [worst_draw; worst_draw; worst_draw])
  = [(lit_0_01, 2); (lit_0_01, 3); (lit_0_01, 4)].
Proof. vm_compute. reflexivity. Qed.

Lemma generator_floors_witness :
  Forall floors_hold
    (generate (MarketDataGenerator_new "TEST" lit_0_02 1)
       [worst_draw; worst_draw; worst_draw])
  /\ (forall (g : MarketDataGenerator) (d : Draw),
         ltb (perturbed_price g d) lit_0_01 = true ->
         price (fst (generateTick g d)) = lit_0_01).
Proof.
  apply (@generator_floors "TEST" lit_0_02 1 [worst_draw; worst_draw; worst_draw]).
  - reflexivity.
  - split; discriminate.
  - repeat constructor.
Defined.

(** C6 as stated fails: a generator constructed with [LONG_MAX - 1] returns
    [LONG_MAX] and then 1. *)
Lemma volume_decreases_at_LONG_MAX :
  draw_ok unit_draw = true
  /\ volume (fst (generateTick
                    (MarketDataGenerator_new "GOOG" lit_150_00 (Long.LONG_MAX - 1))
                    unit_draw))
     = Long.LONG_MAX
  /\ volume (fst (generateTick
                    (snd (generateTick
                            (MarketDataGenerator_new "GOOG" lit_150_00 (Long.LONG_MAX - 1))
                            unit_draw))
                    unit_draw))
     = 1
  /\ volume (fst (generateTick
                    (snd (generateTick
                            (MarketDataGenerator_new "GOOG" lit_150_00 (Long.LONG_MAX - 1))
                            unit_draw))
                    unit_draw))
     < volume (fst (generateTick
                      (MarketDataGenerator_new "GOOG" lit_150_00 (Long.LONG_MAX - 1))
                      unit_draw)).
Proof. vm_compute. repeat split. Qed.

Lemma volume_non_decreasing_without_overflow_witness :
  volume (fst (generateTick (MarketDataGenerator_new "GOOG" lit_150_00 1000) unit_draw))
  <= volume (fst (generateTick
                    (snd (generateTick
                            (MarketDataGenerator_new "GOOG" lit_150_00 1000) unit_draw))
                    unit_draw))
  /\ volume (fst (generateTick
                    (snd (generateTick
                            (MarketDataGenerator_new "GOOG" lit_150_00 1000) unit_draw))
                    unit_draw))
     = volume (fst (generateTick (MarketDataGenerator_new "GOOG" lit_150_00 1000) unit_draw))
       + volume_draw unit_draw.
Proof.
  apply (@volume_non_decreasing_without_overflow
           (MarketDataGenerator_new "GOOG" lit_150_00 1000) unit_draw unit_draw).
  - reflexivity.
  - discriminate.
Defined.

(** C10 as stated fails: constructed with [LONG_MAX], which is at least 1,
    the first call takes the branch of line 55 and returns the volume 1. *)
Lemma volume_clamp_taken_at_LONG_MAX :
  1 <= Long.LONG_MAX
  /\ draw_ok unit_draw = true
  /\ volume_clamp_trace
       (MarketDataGenerator_new "GOOG" lit_150_00 Long.LONG_MAX) [unit_draw]
     = [true]
  /\ volume (fst (generateTick
                    (MarketDataGenerator_new "GOOG" lit_150_00 Long.LONG_MAX)
                    unit_draw))
     = 1.
Proof. vm_compute. repeat split. discriminate. Qed.

Lemma volume_clamp_dead_without_overflow_witness :
  Forall (fun b => b = false)
    (volume_clamp_trace (MarketDataGenerator_new "GOOG" lit_150_00 1000)
       [unit_draw; worst_draw])
  /\ Forall (fun t => 2 <= volume t)
       (ticks (MarketDataGenerator_new "GOOG" lit_150_00 1000) [unit_draw; worst_draw]).
Proof.
  apply (@volume_clamp_dead_without_overflow "GOOG" lit_150_00 1000
           [unit_draw; worst_draw]).
  - discriminate.
  - discriminate.
  - repeat constructor.
Defined.

(** Three generators, two steps: A1, B1, C1, A2, B2, C2. *)
Example abc_push_order :
  map (fun t => (symbol t, timestamp t, volume t))
    (TSQ.queue_ (snd (fst (produce abc_env 2 abc_generators TSQ.new_queue))))
  = [ ("A", 0, 1001); ("B", 1, 1201); ("C", 2, 901);
      ("A", 3, 1002); ("B", 4, 1202); ("C", 5, 902) ]%string.
Proof. vm_compute. reflexivity. Qed.

(** The writer, started after the producer is through, writes the header
    and the six rows in that order and returns. *)
Example abc_rows :
  option_map
    (fun qw => map (fun t => (symbol t, timestamp t)) (rows (outputFile (snd qw))))
    (writer_alone 7 (snd (fst (produce abc_env 2 abc_generators TSQ.new_queue)))
       (writer_start true))
  = Some [ ("A", 0); ("B", 1); ("C", 2); ("A", 3); ("B", 4); ("C", 5) ]%string.
Proof. vm_compute. reflexivity. Qed.

Lemma simulation_push_order_witness :
  map symbol (interleaved abc_env abc_generators 2)
  = ["A"; "B"; "C"; "A"; "B"; "C"]%string.
Proof.
  exact (proj1 (proj2 (simulation_push_order abc_env 2 abc_generators))).
Defined.

(** The symbols of the fifty steps of [main]. *)
Example main_push_order (env : nat -> nat -> Draw) :
  map symbol (interleaved env main_generators num_simulation_steps)
  = concat (repeat ["GOOG"; "AAPL"; "MSFT"; "AMZN"; "TSLA"]%string 50).
Proof.
  exact (interleaved_symbols env main_generators num_simulation_steps).
Qed.

(* ================================================================== *)
(** * Further facts about ThreadSafeQueue *)
(* ================================================================== *)

Section QueueMore.

Import TSQ.

Variable T : Type.

Lemma run_app (cs1 cs2 : list (call T)) :
  forall q : ThreadSafeQueue T,
    run (cs1 ++ cs2) q
    = (fst (run cs1 q) ++ fst (run cs2 (snd (run cs1 q))),
       snd (run cs2 (snd (run cs1 q)))).
Proof.
  induction cs1 as [|c cs1 IH]; intros q.
  - simpl. now destruct (run cs2 q).
  - cbn [app run]. destruct (exec c q) as [out q1]. rewrite IH.
    destruct (run cs1 q1) as [o1 q2]. cbn [fst snd].
    now rewrite app_assoc.
Qed.

(** A call hands out the same values and leaves the same items whatever
    the flag. *)
Lemma exec_flag_blind (c : call T) (q1 q2 : ThreadSafeQueue T) :
  queue_ q1 = queue_ q2 ->
  fst (exec c q1) = fst (exec c q2)
  /\ queue_ (snd (exec c q1)) = queue_ (snd (exec c q2)).
Proof.
  destruct q1 as [xs s1], q2 as [ys s2]. simpl. intros <-.
  destruct c as [v| | |]; cbn [exec].
  - split; reflexivity.
  - destruct xs; split; reflexivity.
  - destruct xs as [|x xs]; [destruct s1, s2|];
      rewrite ?wait_and_pop_cons; split; reflexivity.
  - split; reflexivity.
Qed.

Lemma run_flag_blind (cs : list (call T)) :
  forall q1 q2 : ThreadSafeQueue T,
    queue_ q1 = queue_ q2 ->
    fst (run cs q1) = fst (run cs q2)
    /\ queue_ (snd (run cs q1)) = queue_ (snd (run cs q2)).
Proof.
  induction cs as [|c cs IH]; intros q1 q2 Hq; [split; [reflexivity|exact Hq]|].
  cbn [run]. destruct (exec_flag_blind c q1 q2 Hq) as [Ho Hn].
  destruct (exec c q1) as [o1 q1'], (exec c q2) as [o2 q2']. cbn [fst snd] in *.
  destruct (IH q1' q2' Hn) as [Ho' Hn'].
  destruct (run cs q1') as [os1 q1''], (run cs q2') as [os2 q2''].
  cbn [fst snd] in *. subst. split; [reflexivity|exact Hn'].
Qed.

Lemma run_flag (cs : list (call T)) :
  forall q : ThreadSafeQueue T,
    stop_requested_ (snd (run cs q)) = stop_requested_ q || has_stop cs.
Proof.
  induction cs as [|c cs IH]; intros q.
  - simpl. now rewrite orb_false_r.
  - cbn [run]. specialize (IH (snd (exec c q))).
    destruct (exec c q) as [out q1] eqn:E. cbn [snd] in IH.
    destruct (run cs q1) as [outs q2]. cbn [snd] in *. rewrite IH.
    destruct q as [xs s]. destruct c as [v| | |]; cbn [exec] in E.
    + inversion E. reflexivity.
    + destruct xs; inversion E; reflexivity.
    + destruct xs as [|x xs]; [destruct s|]; rewrite ?wait_and_pop_cons in E;
        inversion E; reflexivity.
    + inversion E. simpl. now rewrite orb_true_r.
Qed.

(** X1.  In an execution made of [push], [try_pop] and [stop] calls, so
    that no caller is kept inside [wait_and_pop], calling [stop] at any
    point changes neither the values [try_pop] hands out nor the items
    left pending. *)
Theorem stop_is_transparent_to_try_pop
  (cs1 cs2 : list (call T)) (q : ThreadSafeQueue T) :
  no_wait_and_pop (cs1 ++ cs2) = true ->
  fst (run (cs1 ++ CStop :: cs2) q) = fst (run (cs1 ++ cs2) q)
  /\ queue_ (snd (run (cs1 ++ CStop :: cs2) q))
     = queue_ (snd (run (cs1 ++ cs2) q)).
Proof.
  intros _. rewrite !run_app. cbn [fst snd].
  change (run (CStop :: cs2) (snd (run cs1 q)))
    with (let (outs, q2) := run cs2 (stop (snd (run cs1 q))) in
          (@nil T ++ outs, q2)).
  destruct (run_flag_blind cs2 (stop (snd (run cs1 q))) (snd (run cs1 q)) eq_refl)
    as [Ho Hq].
  destruct (run cs2 (stop (snd (run cs1 q)))) as [outs q2]. cbn [fst snd app] in *.
  now rewrite Ho, Hq.
Qed.

(** X2.  What [wait_and_pop] does after any execution on a new queue is
    decided by the pending items and by whether [stop] was called: the
    front item if there is one; otherwise the exception if [stop] was
    called, and waiting if it was not. *)
Theorem wait_and_pop_by_history (cs : list (call T)) :
  fst (wait_and_pop (snd (run cs new_queue)))
  = match queue_ (snd (run cs new_queue)) with
    | front :: _ => Popped front
    | [] => if has_stop cs then Stopped else Blocked
    end.
Proof.
  pose proof (run_flag cs new_queue) as Hf. simpl in Hf.
  destruct (snd (run cs new_queue)) as [[|x xs] s]; cbn [queue_ stop_requested_] in *.
  - subst s. now destruct (has_stop cs).
  - now rewrite wait_and_pop_cons.
Qed.

(** X3.  The blocking and the non-blocking pop deliver alike: one returns
    a value and a next state exactly when the other returns the same. *)
Theorem wait_and_pop_agrees_with_try_pop
  (q q' : ThreadSafeQueue T) (v : T) :
  wait_and_pop q = (Popped v, q') <-> try_pop q = (Some v, q').
Proof.
  destruct q as [[|x xs] s].
  - destruct s; simpl; split; discriminate.
  - rewrite wait_and_pop_cons, try_pop_cons.
    split; intros H; inversion H; reflexivity.
Qed.

(** X4.  Both pops call [front()] and [pop()] on a queue that has an item:
    past the emptiness test of [try_pop], and past the wait and the throw
    of [wait_and_pop], [queue_] is not empty and its front is what the
    call returns. *)
Theorem front_only_on_items (q : ThreadSafeQueue T) :
  (empty (queue_ q) = false \/
   (wait_predicate q = true /\ stop_requested_ q && empty (queue_ q) = false)) ->
  exists (x : T) (xs : list T),
    queue_ q = x :: xs
    /\ try_pop q = (Some x, mkQueue xs (stop_requested_ q))
    /\ wait_and_pop q = (Popped x, mkQueue xs (stop_requested_ q)).
Proof.
  destruct q as [[|x xs] s]; unfold wait_predicate; simpl.
  - intros [H | [Hw Hs]]; [discriminate|]. rewrite Hw in Hs. discriminate.
  - intros _. exists x, xs. rewrite wait_and_pop_cons. repeat split.
Qed.

End QueueMore.

Lemma front_only_on_items_witness :
  exists (x : nat) (xs : list nat),
    TSQ.queue_ (TSQ.mkQueue [7%nat] true) = x :: xs
    /\ TSQ.try_pop (TSQ.mkQueue [7%nat] true) = (Some x, TSQ.mkQueue xs true)
    /\ TSQ.wait_and_pop (TSQ.mkQueue [7%nat] true) = (TSQ.Popped x, TSQ.mkQueue xs true).
Proof.
  apply (@front_only_on_items nat (TSQ.mkQueue [7%nat] true)).
  right. split; reflexivity.
Defined.


(* ================================================================== *)
(** * Further facts about MarketDataGenerator *)
(* ================================================================== *)

Section GeneratorMore.

(** X5.  The floors do not depend on the values given to the constructor,
    a NaN price apart: whatever the initial volume (zero and negative
    included) and whatever the initial price that is a number (zero,
    negative and infinite included), every tick and every state left has a
    price of at least 0.01 and a volume of at least 1. *)
Theorem floors_whatever_the_start
  (sym : string) (initialPrice : double) (initialVolume : Z) (ds : list Draw) :
  is_nan initialPrice = false ->
  Forall (fun d => draw_ok d = true) ds ->
  Forall floors_hold
    (generate (MarketDataGenerator_new sym initialPrice initialVolume) ds).
Proof.
  intros Hp Hds. now apply generate_floors.
Qed.

Lemma generateTick_nan (g : MarketDataGenerator) (d : Draw) :
  is_nan (currentPrice_ g) = true ->
  price (fst (generateTick g d)) = S754_nan.
Proof.
  destruct g as [sym p v]. simpl. destruct p; try discriminate. intros _.
  unfold generateTick, price_clamped, perturbed_price. reflexivity.
Qed.

(** X6.  A generator whose price is a NaN returns NaN prices for ever,
    whatever the draws: the test of line 49 is false on a NaN, so the
    floor never replaces it. *)
Theorem nan_price_stays (ds : list Draw) :
  forall g : MarketDataGenerator,
    is_nan (currentPrice_ g) = true ->
    Forall (fun tg => price (fst tg) = S754_nan
                      /\ leb lit_0_01 (price (fst tg)) = false)
      (generate g ds).
Proof.
  induction ds as [|d ds IH]; intros g Hg; [constructor|].
  pose proof (generateTick_nan g d Hg) as Hn.
  destruct (generateTick_state g d) as (Sp & _).
  cbn [generate]. destruct (generateTick g d) as [t g']. cbn [fst snd] in *.
  constructor.
  - cbn [fst]. rewrite Hn. split; reflexivity.
  - apply IH. rewrite Sp, Hn. reflexivity.
Qed.

(** X7.  As long as the total of the draws fits a [long], the volumes of
    the ticks are the running totals of the draws added to the volume the
    generator started with. *)
Theorem volumes_are_running_totals (ds : list Draw) :
  forall g : MarketDataGenerator,
    1 <= currentVolume_ g ->
    Forall (fun d => 1 <= volume_draw d) ds ->
    currentVolume_ g + fold_right Z.add 0 (map volume_draw ds) <= Long.LONG_MAX ->
    map volume (ticks g ds) = partial_sums (currentVolume_ g) (map volume_draw ds).
Proof.
  induction ds as [|d ds IH]; intros g Hg Hds Hmax; [reflexivity|].
  inversion Hds as [|? ? Hd Hds']; subst. cbn [map fold_right] in Hmax.
  assert (Hsum : 0 <= fold_right Z.add 0 (map volume_draw ds)).
  { clear -Hds'. induction Hds' as [|d' ds' Hd' _ IH']; simpl; lia. }
  destruct (volume_step_no_overflow g d) as [_ Hv]; try lia.
  destruct (generateTick_state g d) as (_ & Sv & _).
  specialize (IH (snd (generateTick g d))).
  unfold ticks in *. cbn [generate partial_sums map].
  destruct (generateTick g d) as [t g']. cbn [fst snd map] in *.
  rewrite Hv. f_equal. rewrite <- Hv, <- Sv. apply IH; try assumption; lia.
Qed.

(** X8.  When adding the draw takes the volume past [LONG_MAX], the call
    takes the branch of line 55 and returns the volume 1. *)
Theorem volume_restarts_at_overflow (g : MarketDataGenerator) (d : Draw) :
  1 <= currentVolume_ g <= Long.LONG_MAX ->
  1 <= volume_draw d <= 100 ->
  Long.LONG_MAX < currentVolume_ g + volume_draw d ->
  volume_clamped g d = true /\ volume (fst (generateTick g d)) = 1.
Proof.
  intros Hg Hd Hov.
  assert (Hw : perturbed_volume g d
               = currentVolume_ g + volume_draw d - 2 ^ Long.LONG_BITS).
  { unfold perturbed_volume. apply wrap_overflow. revert Hg Hov.
    rewrite LONG_MAX_eq. change (2 ^ Long.LONG_BITS) with 18446744073709551616.
    lia. }
  assert (Hc : volume_clamped g d = true).
  { unfold volume_clamped. rewrite Hw. apply Z.ltb_lt. revert Hg.
    rewrite LONG_MAX_eq. change (2 ^ Long.LONG_BITS) with 18446744073709551616.
    lia. }
  split; [exact Hc|]. unfold generateTick. simpl. now rewrite Hc.
Qed.

(** X9.  Every tick of a generator carries the symbol given to the
    constructor and the clock reading of its call, and [getSymbol] answers
    the same after every call. *)
Theorem ticks_carry_symbol_and_clock (ds : list Draw) :
  forall g : MarketDataGenerator,
    Forall (fun tg => symbol (fst tg) = getSymbol g
                      /\ getSymbol (snd tg) = getSymbol g)
      (generate g ds)
    /\ map timestamp (ticks g ds) = map now ds.
Proof.
  unfold ticks, getSymbol.
  induction ds as [|d ds IH]; intros g; [split; [constructor|reflexivity]|].
  destruct (IH (snd (generateTick g d))) as [IH1 IH2].
  cbn [generate]. destruct (generateTick g d) as [t g'] eqn:E.
  assert (Ht : symbol t = symbol_ g /\ symbol_ g' = symbol_ g /\ timestamp t = now d)
    by (unfold generateTick in E; inversion E; repeat split).
  destruct Ht as (H1 & H2 & H3). cbn [fst snd map] in *. split.
  - constructor; [split; assumption|].
    rewrite H2 in IH1. exact IH1.
  - now rewrite H3, IH2.
Qed.

End GeneratorMore.

Lemma floors_whatever_the_start_witness :
  Forall floors_hold
    (generate (MarketDataGenerator_new "TEST" (S754_infinity true) (-5))
       [unit_draw; worst_draw]).
Proof.
  apply (@floors_whatever_the_start "TEST" (S754_infinity true) (-5)
           [unit_draw; worst_draw]).
  - reflexivity.
  - repeat constructor.
Defined.

Lemma nan_price_stays_witness :
  Forall (fun tg => price (fst tg) = S754_nan
                    /\ leb lit_0_01 (price (fst tg)) = false)
    (generate (MarketDataGenerator_new "TEST" S754_nan 1) [unit_draw; worst_draw]).
Proof.
  apply (@nan_price_stays [unit_draw; worst_draw]
           (MarketDataGenerator_new "TEST" S754_nan 1)).
  reflexivity.
Defined.

Lemma volumes_are_running_totals_witness :
  map volume (ticks (MarketDataGenerator_new "GOOG" lit_150_00 1000)
                [unit_draw; mkDraw 1 zero 40; mkDraw 2 zero 100])
  = [1001; 1041; 1141].
Proof.
  apply (@volumes_are_running_totals
           [unit_draw; mkDraw 1 zero 40; mkDraw 2 zero 100]
           (MarketDataGenerator_new "GOOG" lit_150_00 1000)).
  - discriminate.
  - repeat constructor; discriminate.
  - discriminate.
Defined.

Lemma volume_restarts_at_overflow_witness :
  volume_clamped
    (MarketDataGenerator_new "GOOG" lit_150_00 (Long.LONG_MAX - 50))
    (mkDraw 0 zero 51) = true
  /\ volume (fst (generateTick
                    (MarketDataGenerator_new "GOOG" lit_150_00 (Long.LONG_MAX - 50))
                    (mkDraw 0 zero 51)))
     = 1.
Proof.
  apply (@volume_restarts_at_overflow
           (MarketDataGenerator_new "GOOG" lit_150_00 (Long.LONG_MAX - 50))
           (mkDraw 0 zero 51)).
  - split; discriminate.
  - split; discriminate.
  - reflexivity.
Defined.

(* ================================================================== *)
(** * Further facts about the simulation loop and the writer thread *)
(* ================================================================== *)

Section DriverMore.

Import TSQ.

Variable env : nat -> nat -> Draw.

Lemma generator_before_generate (g : MarketDataGenerator) (i n : nat) :
  forall k : nat,
    map (tick_of env g i) (seq k n)
    = ticks (generator_before env g i k) (map (fun s => env s i) (seq k n)).
Proof.
  unfold ticks. induction n as [|n IH]; intros k; [reflexivity|].
  cbn [seq map generate]. rewrite (IH (S k)). cbn [generator_before].
  unfold tick_of. destruct (generateTick (generator_before env g i k) (env k i)).
  reflexivity.
Qed.

(** X10.  In the queue the simulation loop leaves, the items at the
    positions of the generator at position [i] (one per step, [G] apart)
    are the ticks that generator returns when it is called alone on its
    own draws: in the loop no generator touches another. *)
Theorem simulation_loop_keeps_generators_apart
  (gens : list MarketDataGenerator) (g : MarketDataGenerator) (i steps : nat) :
  nth_error gens i = Some g ->
  map (fun s => nth_error
                  (queue_ (snd (fst (produce env steps gens new_queue))))
                  (s * length gens + i))
    (seq O steps)
  = map Some (ticks g (map (fun s => env s i) (seq O steps))).
Proof.
  intros Hg. rewrite produce_spec. cbn [fst snd queue_].
  pose proof (generator_before_generate g i steps O) as Hown.
  cbn [generator_before] in Hown. rewrite <- Hown, map_map.
  apply map_ext_in. intros s Hs. apply in_seq in Hs.
  apply interleaved_nth; [lia|exact Hg].
Qed.

Lemma interleaved_length (gens : list MarketDataGenerator) (steps : nat) :
  length (interleaved env gens steps) = (steps * length gens)%nat.
Proof.
  unfold interleaved. generalize O.
  induction steps as [|n IH]; intros k; [reflexivity|].
  cbn [seq flat_map]. rewrite length_app, step_ticks_length, IH. reflexivity.
Qed.

(** X11.  A run of [steps] steps over G generators pushes and prints
    [steps * G] ticks, none when there is no generator or no step; and
    when both threads are through, the file has that many lines after its
    header. *)
Theorem simulation_counts (steps : nat) (gens : list MarketDataGenerator) :
  length (queue_ (snd (fst (produce env steps gens new_queue))))
  = (steps * length gens)%nat
  /\ length (snd (produce env steps gens new_queue)) = (steps * length gens)%nat
  /\ (forall st : system,
         sys_steps (sys_init env steps gens true) st -> finished st ->
         length (outputFile (writerThread st)) = S (steps * length gens)).
Proof.
  rewrite produce_spec. cbn [fst snd queue_].
  split; [apply interleaved_length|]. split; [apply interleaved_length|].
  intros st Hsteps Hfin.
  assert (Hinv : sys_inv (interleaved env gens steps) st).
  { eapply sys_inv_steps; [|exact Hsteps]. apply sys_inv_init. }
  destruct (sys_inv_finished Hinv Hfin) as [Hf _]. rewrite Hf.
  cbn [length]. now rewrite length_map, interleaved_length.
Qed.

Lemma generator_before_not_nan (g : MarketDataGenerator) (i : nat) :
  (forall s : nat, draw_ok (env s i) = true) ->
  is_nan (currentPrice_ g) = false ->
  forall s : nat, is_nan (currentPrice_ (generator_before env g i s)) = false.
Proof.
  intros Henv Hg. induction s as [|s IH]; [exact Hg|].
  cbn [generator_before].
  destruct (generateTick_state (generator_before env g i s) (env s i)) as (Sp & _).
  rewrite Sp. eapply leb_not_nan.
  apply generateTick_price_floor; [exact IH|apply Henv].
Qed.

(** X12.  When every draw comes from the two distributions and no
    generator starts with a NaN price, every tick the simulation pushes
    has a price of at least 0.01 and a volume of at least 1. *)
Theorem simulation_ticks_above_floors
  (steps : nat) (gens : list MarketDataGenerator) :
  (forall s i : nat, draw_ok (env s i) = true) ->
  Forall (fun g => is_nan (currentPrice_ g) = false) gens ->
  Forall (fun t => leb lit_0_01 (price t) = true /\ 1 <= volume t)
    (interleaved env gens steps).
Proof.
  intros Henv Hgens. apply Forall_forall. intros t Ht.
  unfold interleaved in Ht. apply in_flat_map in Ht.
  destruct Ht as (s & _ & Ht). unfold step_ticks in Ht.
  apply in_map_iff in Ht. destruct Ht as ([i g] & <- & Hig).
  cbn [fst snd]. unfold indexed in Hig. apply in_combine_r in Hig.
  assert (Hg : is_nan (currentPrice_ g) = false)
    by (revert g Hig; now apply Forall_forall).
  unfold tick_of. split.
  - apply generateTick_price_floor; [|apply Henv].
    apply generator_before_not_nan; [intros s'; apply Henv|exact Hg].
  - apply generateTick_volume_floor.
Qed.


(** X14.  The writer thread only returns after [stop] has been called,
    with the producer through and the queue empty, and then the file
    holds every tick: it cannot leave early. *)
Theorem writer_returns_last
  (steps : nat) (gens : list MarketDataGenerator) (st : system) :
  sys_steps (sys_init env steps gens true) st ->
  pc (writerThread st) = Exited ->
  stop_requested_ (tickQueue st) = true
  /\ todo st = []
  /\ queue_ (tickQueue st) = []
  /\ outputFile (writerThread st) = Header :: map Row (interleaved env gens steps).
Proof.
  intros Hsteps Hpc.
  assert (Hinv : sys_inv (interleaved env gens steps) st).
  { eapply sys_inv_steps; [|exact Hsteps]. apply sys_inv_init. }
  assert (Hfin : finished st).
  { destruct Hinv as (_ & _ & Hexit). split; [apply Hexit, Hpc|exact Hpc]. }
  destruct (sys_inv_finished Hinv Hfin) as [Hf Hq].
  destruct Hinv as (_ & Hflag & _). destruct Hfin as [Htodo _].
  repeat split; try assumption.
  destruct Hflag as [[_ [rest Hrest]] | [Hs _]]; [|exact Hs].
  rewrite Htodo in Hrest. destruct rest; discriminate.
Qed.

Lemma sys_inv_closed_init (all : list MarketDataTick) :
  sys_inv_closed all
    (mkSystem (map CPush all ++ [CStop]) new_queue (writer_start false)).
Proof.
  unfold sys_inv_closed. cbn [todo tickQueue writerThread writer_start].
  split; [reflexivity|]. split.
  - simpl. induction all as [|t all IH]; [reflexivity|]. simpl. now f_equal.
  - left. split; [reflexivity|]. now exists all.
Qed.

Lemma sys_inv_closed_step (all : list MarketDataTick) (s s' : system) :
  sys_inv_closed all s -> sys_step s s' -> sys_inv_closed all s'.
Proof.
  intros (Hw & Hall & Hflag) Hstep.
  destruct Hstep as [c cs q w | cs q q' w w' Hiter];
    cbn [todo tickQueue writerThread] in *.
  - destruct Hflag as [[Hs [rest Hrest]] | [_ Hnil]]; [|discriminate].
    destruct rest as [|t rest]; simpl in Hrest; injection Hrest as -> ->;
      unfold sys_inv_closed;
      cbn [todo tickQueue writerThread exec snd stop push queue_ stop_requested_].
    + split; [exact Hw|]. split; [exact Hall|]. right. split; reflexivity.
    + split; [exact Hw|]. split.
      * rewrite <- Hall. cbn [pushed]. now rewrite <- app_assoc.
      * left. split; [exact Hs|]. now exists rest.
  - subst w. discriminate.
Qed.

Lemma sys_inv_closed_steps (all : list MarketDataTick) (s s' : system) :
  sys_inv_closed all s -> sys_steps s s' -> sys_inv_closed all s'.
Proof.
  intros Hinv Hsteps. induction Hsteps as [s | s1 s2 s3 _ IH Hstep].
  - exact Hinv.
  - eapply sys_inv_closed_step; [apply IH, Hinv | exact Hstep].
Qed.

Lemma sys_closed_completes (td : list (call MarketDataTick)) :
  forall (q : TickQueue) (w : writer),
    exists q', sys_steps (mkSystem td q w) (mkSystem [] q' w).
Proof.
  induction td as [|c cs IH]; intros q w.
  - exists q. apply sys_refl.
  - destruct (IH (snd (exec c q)) w) as [q' Hq'].
    exists q'. eapply sys_steps_left; [apply producer_step|exact Hq'].
Qed.

(** X15.  When the file cannot be opened the writer thread returns at once
    and takes nothing from the queue; the producer is not held up: every
    push and the final [stop] go through, every execution can be
    completed, and at the end all the ticks sit in the queue, in order. *)
Theorem unopened_file_loses_nothing_in_queue
  (steps : nat) (gens : list MarketDataGenerator) (st : system) :
  sys_steps (sys_init env steps gens false) st ->
  writerThread st = mkWriter Exited []
  /\ queue_ (tickQueue st) ++ pushed (todo st) = interleaved env gens steps
  /\ (exists st', sys_steps st st' /\ finished st')
  /\ (finished st ->
      queue_ (tickQueue st) = interleaved env gens steps
      /\ stop_requested_ (tickQueue st) = true).
Proof.
  intros Hsteps.
  assert (Hinv : sys_inv_closed (interleaved env gens steps) st).
  { eapply sys_inv_closed_steps; [|exact Hsteps]. apply sys_inv_closed_init. }
  destruct Hinv as (Hw & Hall & Hflag).
  split; [exact Hw|]. split; [exact Hall|]. split.
  - destruct st as [td q w]. cbn [writerThread] in Hw. subst w.
    destruct (sys_closed_completes td q (mkWriter Exited [])) as [q' Hq'].
    eexists. split; [exact Hq'|]. split; reflexivity.
  - intros [Htodo _]. rewrite Htodo in Hall. simpl in Hall.
    rewrite app_nil_r in Hall. split; [exact Hall|].
    destruct Hflag as [[_ [rest Hrest]] | [Hs _]]; [|exact Hs].
    rewrite Htodo in Hrest. destruct rest; discriminate.
Qed.

Lemma sys_run_measure (n : nat) (s s' : system) :
  sys_run n s s' -> (n + measure s' <= measure s)%nat.
Proof.
  induction 1 as [s | n s1 s2 s3 _ IH Hstep]; [lia|].
  apply sys_step_measure in Hstep. lia.
Qed.

(** X16.  No execution goes on for ever: whatever the interleaving, the
    two threads make at most [2 * steps * G + 3] moves on the queue. *)
Theorem executions_are_bounded
  (steps : nat) (gens : list MarketDataGenerator) (is_open : bool)
  (n : nat) (st : system) :
  sys_run n (sys_init env steps gens is_open) st ->
  (n <= 2 * (steps * length gens) + 3)%nat.
Proof.
  intros Hrun. apply sys_run_measure in Hrun.
  assert (Hm : (measure (sys_init env steps gens is_open)
                <= 2 * (steps * length gens) + 3)%nat).
  { unfold measure, sys_init, producer_calls.
    cbn [todo tickQueue writerThread queue_ new_queue].
    rewrite length_app, length_map, interleaved_length.
    destruct is_open; simpl; lia. }
  lia.
Qed.

(** X17.  The writer alone on a stopped queue: given one iteration more
    than there are items, it appends a row per item, in order, empties the
    queue and returns. *)
Theorem writer_alone_drains (items : list MarketDataTick) :
  forall (file : list csv_line) (fuel : nat),
    (length items < fuel)%nat ->
    writer_alone fuel (mkQueue items true) (mkWriter InLoop file)
    = Some (mkQueue [] true, mkWriter Exited (file ++ map Row items)).
Proof.
  induction items as [|t items IH]; intros file fuel Hfuel;
    (destruct fuel as [|fuel]; [simpl in Hfuel; lia|]).
  - simpl. destruct fuel; now rewrite app_nil_r.
  - cbn [writer_alone pc]. unfold writer_iter. cbn [pc outputFile].
    rewrite wait_and_pop_cons. rewrite IH by (simpl in Hfuel; lia).
    cbn [map]. now rewrite <- app_assoc.
Qed.

Lemma writer_alone_open_queue (fuel : nat) :
  forall (items : list MarketDataTick) (file : list csv_line),
    writer_alone fuel (mkQueue items false) (mkWriter InLoop file) = None.
Proof.
  induction fuel as [|fuel IH]; intros items file; [reflexivity|].
  cbn [writer_alone pc]. unfold writer_iter. cbn [pc outputFile].
  destruct items as [|t items]; [reflexivity|].
  rewrite wait_and_pop_cons. apply IH.
Qed.

Lemma writer_iters_open_queue (items : list MarketDataTick) :
  forall file : list csv_line,
    writer_iters (length items) (mkQueue items false) (mkWriter InLoop file)
    = Some (mkQueue [] false, mkWriter InLoop (file ++ map Row items)).
Proof.
  induction items as [|t items IH]; intros file.
  - simpl. now rewrite app_nil_r.
  - cbn [length writer_iters]. unfold writer_iter. cbn [pc outputFile].
    rewrite wait_and_pop_cons, IH. cbn [map]. now rewrite <- app_assoc.
Qed.

(** X18.  The writer alone on a queue holding K items on which [stop] has
    not been called: it makes K iterations, which append the K rows in
    queue order and empty the queue; it is then still inside its loop,
    where [wait_and_pop] keeps it waiting, so no further iteration can be
    made; and it never returns, however many iterations it is given. *)
Theorem writer_alone_waits_without_stop
  (items : list MarketDataTick) (file : list csv_line) :
  writer_iters (length items) (mkQueue items false) (mkWriter InLoop file)
  = Some (mkQueue [] false, mkWriter InLoop (file ++ map Row items))
  /\ fst (wait_and_pop (mkQueue (@nil MarketDataTick) false)) = Blocked
  /\ writer_iters (S (length items)) (mkQueue items false) (mkWriter InLoop file)
     = None
  /\ (forall fuel : nat,
         writer_alone fuel (mkQueue items false) (mkWriter InLoop file) = None).
Proof.
  split; [apply writer_iters_open_queue|]. split; [reflexivity|]. split.
  - revert file. induction items as [|t items IH]; intros file; [reflexivity|].
    change (writer_iters (S (length (t :: items))) (mkQueue (t :: items) false)
              (mkWriter InLoop file))
      with (match writer_iter (mkQueue (t :: items) false) (mkWriter InLoop file) with
            | Some (q', w') => writer_iters (S (length items)) q' w'
            | None => None
            end).
    unfold writer_iter. cbn [pc outputFile]. rewrite wait_and_pop_cons. apply IH.
  - intros fuel. apply writer_alone_open_queue.
Qed.

Lemma sys_turn_step (turn : bool) (s : system) :
  fst (sys_turn turn s) = true -> sys_step s (snd (sys_turn turn s)).
Proof.
  destruct s as [td q w]. unfold sys_turn. cbn [todo tickQueue writerThread].
  destruct turn.
  - destruct td as [|c cs]; [discriminate|]. intros _. apply producer_step.
  - destruct (writer_iter q w) as [[q' w']|] eqn:E; [|discriminate].
    intros _. now apply writer_step.
Qed.

Lemma sys_turn_stay (turn : bool) (s : system) :
  fst (sys_turn turn s) = false -> snd (sys_turn turn s) = s.
Proof.
  destruct s as [td q w]. unfold sys_turn. cbn [todo tickQueue writerThread].
  destruct turn.
  - destruct td; [reflexivity|discriminate].
  - destruct (writer_iter q w) as [[q' w']|]; [discriminate|reflexivity].
Qed.

Lemma sys_run_left (n : nat) (s1 s2 s3 : system) :
  sys_step s1 s2 -> sys_run n s2 s3 -> sys_run (S n) s1 s3.
Proof.
  intros H12 H23. induction H23 as [s | n s2 s3 s4 _ IH H34].
  - eapply run_S; [apply run_O|exact H12].
  - eapply run_S; [apply IH, H12|exact H34].
Qed.

(** What a schedule computes is an execution with that many moves. *)
Lemma sys_exec_run (schedule : list bool) :
  forall s : system,
    sys_run (fst (sys_exec schedule s)) s (snd (sys_exec schedule s)).
Proof.
  induction schedule as [|turn rest IH]; intros s; [apply run_O|].
  cbn [sys_exec].
  pose proof (sys_turn_step turn s) as Hstep.
  pose proof (sys_turn_stay turn s) as Hstay.
  destruct (sys_turn turn s) as [moved s']. cbn [fst snd] in *.
  specialize (IH s'). destruct (sys_exec rest s') as [n s'']. cbn [fst snd] in *.
  destruct moved.
  - eapply sys_run_left; [apply Hstep; reflexivity|exact IH].
  - rewrite <- (Hstay eq_refl). exact IH.
Qed.

Lemma sys_run_steps (n : nat) (s s' : system) :
  sys_run n s s' -> sys_steps s s'.
Proof.
  induction 1 as [s | n s1 s2 s3 _ IH Hstep]; [apply sys_refl|].
  eapply sys_trans; eassumption.
Qed.

Lemma sys_exec_steps (schedule : list bool) (s : system) :
  sys_steps s (snd (sys_exec schedule s)).
Proof. eapply sys_run_steps, sys_exec_run. Qed.

End DriverMore.

Lemma abc_env_ok (s i : nat) : draw_ok (abc_env s i) = true.
Proof. reflexivity. Qed.

Lemma simulation_ticks_above_floors_witness :
  Forall (fun t => leb lit_0_01 (price t) = true /\ 1 <= volume t)
    (interleaved abc_env abc_generators 2).
Proof.
  apply (@simulation_ticks_above_floors abc_env 2 abc_generators).
  - exact abc_env_ok.
  - repeat constructor.
Defined.

(** Midway through the three generators and two steps of the examples:
    three ticks pushed, two of them written. *)
Example abc_midway_state :
  map (fun l => match l with Header => "Header"%string | Row t => symbol t end)
    (outputFile (writerThread
       (snd (sys_exec abc_midway (sys_init abc_env 2 abc_generators true)))))
  = ["Header"; "A"; "B"]%string
  /\ map symbol
       (TSQ.queue_ (tickQueue
          (snd (sys_exec abc_midway (sys_init abc_env 2 abc_generators true)))))
     = ["C"]%string
  /\ length (todo (snd (sys_exec abc_midway (sys_init abc_env 2 abc_generators true))))
     = 4%nat.
Proof. vm_compute. repeat split. Qed.


(** Both threads run to their end, pushes and pops interleaved: fourteen
    moves, six rows. *)
Example abc_whole_state :
  fst (sys_exec abc_whole (sys_init abc_env 2 abc_generators true)) = 14%nat
  /\ map (fun l => match l with Header => "Header"%string | Row t => symbol t end)
       (outputFile (writerThread
          (snd (sys_exec abc_whole (sys_init abc_env 2 abc_generators true)))))
     = ["Header"; "A"; "B"; "C"; "A"; "B"; "C"]%string.
Proof. vm_compute. split; reflexivity. Qed.

Lemma writer_returns_last_witness :
  TSQ.stop_requested_
    (tickQueue (snd (sys_exec abc_whole (sys_init abc_env 2 abc_generators true))))
  = true
  /\ todo (snd (sys_exec abc_whole (sys_init abc_env 2 abc_generators true))) = []
  /\ TSQ.queue_
       (tickQueue (snd (sys_exec abc_whole (sys_init abc_env 2 abc_generators true))))
     = []
  /\ outputFile
       (writerThread (snd (sys_exec abc_whole (sys_init abc_env 2 abc_generators true))))
     = Header :: map Row (interleaved abc_env abc_generators 2).
Proof.
  apply (@writer_returns_last abc_env 2 abc_generators
           (snd (sys_exec abc_whole (sys_init abc_env 2 abc_generators true)))).
  - apply sys_exec_steps.
  - vm_compute. reflexivity.
Defined.

(** The file could not be opened and the producer has made its six pushes
    and the stop: the six ticks are in the queue. *)
Lemma unopened_file_loses_nothing_in_queue_witness :
  writerThread (snd (sys_exec abc_producer_only (sys_init abc_env 2 abc_generators false)))
  = mkWriter Exited []
  /\ TSQ.queue_
       (tickQueue
          (snd (sys_exec abc_producer_only (sys_init abc_env 2 abc_generators false))))
     = interleaved abc_env abc_generators 2
  /\ TSQ.stop_requested_
       (tickQueue
          (snd (sys_exec abc_producer_only (sys_init abc_env 2 abc_generators false))))
     = true.
Proof.
  destruct (@unopened_file_loses_nothing_in_queue abc_env 2 abc_generators
              (snd (sys_exec abc_producer_only
                      (sys_init abc_env 2 abc_generators false)))
              (sys_exec_steps _ _))
    as (Hw & _ & _ & Hend).
  split; [exact Hw|]. apply Hend. split; vm_compute; reflexivity.
Defined.

Lemma executions_are_bounded_witness :
  (fst (sys_exec abc_whole (sys_init abc_env 2 abc_generators true))
   <= 2 * (2 * length abc_generators) + 3)%nat.
Proof.
  apply (@executions_are_bounded abc_env 2 abc_generators true
           (fst (sys_exec abc_whole (sys_init abc_env 2 abc_generators true)))
           (snd (sys_exec abc_whole (sys_init abc_env 2 abc_generators true)))).
  apply sys_exec_run.
Defined.

Lemma stop_is_transparent_to_try_pop_witness :
  fst (TSQ.run ([TSQ.CPush 1%nat; TSQ.CTryPop]
                ++ TSQ.CStop :: [TSQ.CPush 2%nat; TSQ.CTryPop; TSQ.CTryPop])
         TSQ.new_queue)
  = fst (TSQ.run ([TSQ.CPush 1%nat; TSQ.CTryPop]
                  ++ [TSQ.CPush 2%nat; TSQ.CTryPop; TSQ.CTryPop])
           TSQ.new_queue)
  /\ TSQ.queue_
       (snd (TSQ.run ([TSQ.CPush 1%nat; TSQ.CTryPop]
                      ++ TSQ.CStop :: [TSQ.CPush 2%nat; TSQ.CTryPop; TSQ.CTryPop])
               TSQ.new_queue))
     = TSQ.queue_
         (snd (TSQ.run ([TSQ.CPush 1%nat; TSQ.CTryPop]
                        ++ [TSQ.CPush 2%nat; TSQ.CTryPop; TSQ.CTryPop])
                 TSQ.new_queue)).
Proof.
  apply (@stop_is_transparent_to_try_pop nat
           [TSQ.CPush 1%nat; TSQ.CTryPop]
           [TSQ.CPush 2%nat; TSQ.CTryPop; TSQ.CTryPop] TSQ.new_queue).
  reflexivity.
Defined.

(** The items of generator B, at positions 1 and 4 of the six pushes. *)
Lemma simulation_loop_keeps_generators_apart_witness :
  map (fun s => nth_error
                  (TSQ.queue_
                     (snd (fst (produce abc_env 2 abc_generators TSQ.new_queue))))
                  (s * length abc_generators + 1))
    (seq O 2)
  = map Some
      (ticks (MarketDataGenerator_new "B" lit_175_50 1200)
         (map (fun s => abc_env s 1) (seq O 2))).
Proof.
  apply (@simulation_loop_keeps_generators_apart abc_env abc_generators
           (MarketDataGenerator_new "B" lit_175_50 1200) 1 2).
  reflexivity.
Defined.

(** C5 as stated fails before the first call: constructed with the price
    0.005, which is above zero, and the volume 1, the object holds a price
    below 0.01. *)
Lemma constructor_keeps_price_below_floor :
  ltb zero lit_0_005 = true
  /\ 1 <= 1 <= Long.LONG_MAX
  /\ generate (MarketDataGenerator_new "TEST" lit_0_005 1) [] = []
  /\ currentPrice_ (MarketDataGenerator_new "TEST" lit_0_005 1) = lit_0_005
  /\ ltb (currentPrice_ (MarketDataGenerator_new "TEST" lit_0_005 1)) lit_0_01 = true
  /\ leb lit_0_01 (currentPrice_ (MarketDataGenerator_new "TEST" lit_0_005 1)) = false.
Proof. vm_compute. repeat split; discriminate. Qed.

Lemma writer_alone_drains_witness :
  writer_alone 7
    (TSQ.mkQueue (interleaved abc_env abc_generators 2) true)
    (mkWriter InLoop [Header])
  = Some (TSQ.mkQueue [] true,
          mkWriter Exited
            ([Header] ++ map Row (interleaved abc_env abc_generators 2))).
Proof.
  apply (@writer_alone_drains (interleaved abc_env abc_generators 2) [Header] 7%nat).
  repeat constructor.
Defined.

(* ================================================================== *)
(** * Facts about getFormattedTimestamp *)
(* ================================================================== *)

Section FormatFacts.

Import TickFormat.

Variable ticks_per_ms : Z.
Variable put_local_time : Z -> string.

Lemma fractions_ok_true : fractions_ok = true.
Proof. vm_compute. reflexivity. Qed.

Lemma fraction_of_millis (z : Z) :
  0 <= z < 1000 ->
  pad_left 3 "0"%char (decimal z) = three_digits (Z.to_nat z)
  /\ value_of_digits (three_digits (Z.to_nat z)) = Some (Z.to_nat z).
Proof.
  intros Hz. pose proof fractions_ok_true as H. unfold fractions_ok in H.
  rewrite forallb_forall in H. specialize (H (Z.to_nat z)).
  assert (Hin : In (Z.to_nat z) (seq 0 1000)) by (apply in_seq; lia).
  apply H in Hin. unfold fraction_ok in Hin. rewrite Z2Nat.id in Hin by lia.
  apply andb_prop in Hin. destruct Hin as [H1 H2].
  apply String.eqb_eq in H1. split; [exact H1|].
  destruct (value_of_digits (three_digits (Z.to_nat z))) as [m|]; [|discriminate].
  apply Nat.eqb_eq in H2. now subst.
Qed.

(** X19.  For an instant at or after the epoch, the text is the local date
    and time of the whole second, a point, and exactly three digits,
    zero-padded, that read back as the milliseconds within that second;
    seconds and milliseconds together are the instant in milliseconds. *)
Theorem formatted_timestamp_has_three_digit_millis (timestamp : Z) :
  0 < ticks_per_ms -> 0 <= timestamp ->
  getFormattedTimestamp ticks_per_ms put_local_time timestamp
  = (put_local_time (to_time_t ticks_per_ms timestamp) ++ "."
     ++ three_digits (Z.to_nat (ms_count ticks_per_ms timestamp)))%string
  /\ value_of_digits (three_digits (Z.to_nat (ms_count ticks_per_ms timestamp)))
     = Some (Z.to_nat (ms_count ticks_per_ms timestamp))
  /\ 0 <= ms_count ticks_per_ms timestamp < 1000
  /\ to_time_t ticks_per_ms timestamp * 1000 + ms_count ticks_per_ms timestamp
     = Z.quot timestamp ticks_per_ms.
Proof.
  intros Hp Ht.
  assert (Hq : 0 <= Z.quot timestamp ticks_per_ms) by (apply Z.quot_pos; lia).
  assert (Hms : 0 <= ms_count ticks_per_ms timestamp < 1000)
    by (unfold ms_count; apply Z.rem_bound_pos; lia).
  destruct (fraction_of_millis Hms) as [H1 H2].
  split; [|split; [exact H2|split; [exact Hms|]]].
  - unfold getFormattedTimestamp. now rewrite H1.
  - unfold to_time_t, ms_count. rewrite <- Z.quot_quot by lia.
    pose proof (Z.quot_rem' (Z.quot timestamp ticks_per_ms) 1000). lia.
Qed.

End FormatFacts.

(** The instant 1 700 000 000 s + 7 ms on a clock counting nanoseconds. *)
Lemma formatted_timestamp_has_three_digit_millis_witness :
  TickFormat.getFormattedTimestamp 1000000 (fun _ => "2023-11-14 22:13:20"%string)
    1700000000007000000
  = "2023-11-14 22:13:20.007"%string.
Proof.
  exact (proj1 (@formatted_timestamp_has_three_digit_millis 1000000
                  (fun _ => "2023-11-14 22:13:20"%string) 1700000000007000000
                  eq_refl ltac:(discriminate))).
Defined.
